(** * Verification of the email directory store of email-db (src/unnamed/part_001)

    JavaScript strings are modelled as lists of UTF-16 code units ([list N]),
    the [EmailDB] object as an explicit state, and [Set] objects as cells of a
    heap, since several operations allocate fresh sets. *)

From Stdlib Require Import NArith ZArith List Ascii String Bool Lia.
From stdpp Require Import base gmap list strings.

Open Scope N_scope.
Set Warnings "-register-all".

(** ** JavaScript strings *)

Abbreviation jsstr := (list N).

(** The code units of an ASCII literal (a helper for concrete inputs). *)
Definition js (s : string) : jsstr := map N_of_ascii (list_ascii_of_string s).

(** ** Regular expressions with the backtracking order of ECMAScript *)

Module Regex.

Inductive re :=
| RChar (p : N -> bool)
| REps
| RSeq (r1 r2 : re)
| RAlt (r1 r2 : re)
| RStar (r : re).

(** A greedy [r*] tries one more iteration first and then stops; an
    iteration that consumes nothing is rejected (the empty check of
    RepeatMatcher). [fuel] bounds the number of iterations and is always
    the length of the input. *)
Fixpoint star_m (m : jsstr -> list jsstr) (fuel : nat) (s : jsstr) : list jsstr :=
  match fuel with
  | O => [s]
  | S f =>
      flat_map (fun s' => if Nat.ltb (length s') (length s) then star_m m f s' else [])
        (m s) ++ [s]
  end.

(** [mt r s]: the inputs left over by every way [r] matches a prefix of [s],
    in the order a backtracking matcher tries them. *)
Fixpoint mt (r : re) (s : jsstr) : list jsstr :=
  match r with
  | RChar p => match s with c :: s' => if p c then [s'] else [] | [] => [] end
  | REps => [s]
  | RSeq r1 r2 => flat_map (mt r2) (mt r1 s)
  | RAlt r1 r2 => mt r1 s ++ mt r2 s
  | RStar r1 => star_m (mt r1) (length s) s
  end.

Definition RPlus (r : re) : re := RSeq r (RStar r).
(** [r{1,3}], greedy *)
Definition R1to3 (r : re) : re := RSeq r (RAlt (RSeq r (RAlt r REps)) REps).
(** [r{2,}], greedy *)
Definition R2up (r : re) : re := RSeq r (RSeq r (RStar r)).
Definition RLit (c : N) : re := RChar (fun x => N.eqb x c).

(** [String.prototype.match] with a non-global regular expression: the
    first position from the left where the pattern matches, and the match
    found first there ([match[0]]). *)
Fixpoint exec (r : re) (s : jsstr) : option jsstr :=
  match mt r s with
  | rest :: _ => Some (firstn (length s - length rest) s)
  | [] => match s with [] => None | _ :: s' => exec r s' end
  end.

End Regex.

Import Regex.

(** ** The address regular expression [EmailRegex] of the source:
    a local part (dot-separated runs of ordinary characters, or a quoted
    string), then [@], then a bracketed IPv4 literal or a sequence of
    labels each followed by a dot and ending in at least two letters. *)

(** [\s]: WhiteSpace and LineTerminator code units. *)
Definition is_space (c : N) : bool :=
  (9 <=? c) && (c <=? 13) || (c =? 32) || (c =? 160) || (c =? 5760)
  || (8192 <=? c) && (c <=? 8202) || (c =? 8232) || (c =? 8233)
  || (c =? 8239) || (c =? 8287) || (c =? 12288) || (c =? 65279).

(** [.] without the s flag: anything but a line terminator. *)
Definition is_dot_char (c : N) : bool :=
  negb ((c =? 10) || (c =? 13) || (c =? 8232) || (c =? 8233)).

(** The negated class of the local part: none of [<>()[]\.,;:@], the double
    quote, or [\s]. *)
Definition is_local_char (c : N) : bool :=
  negb (existsb (N.eqb c) [60; 62; 40; 41; 91; 93; 92; 46; 44; 59; 58; 64; 34]
        || is_space c).

Definition is_digit (c : N) : bool := (48 <=? c) && (c <=? 57).
Definition is_alpha (c : N) : bool :=
  (65 <=? c) && (c <=? 90) || (97 <=? c) && (c <=? 122).
(** [[a-zA-Z\-0-9]] *)
Definition is_label_char (c : N) : bool := is_alpha c || (c =? 45) || is_digit c.

Definition local_part : re :=
  RAlt (RSeq (RPlus (RChar is_local_char))
             (RStar (RSeq (RLit 46) (RPlus (RChar is_local_char)))))
       (RSeq (RLit 34) (RSeq (RPlus (RChar is_dot_char)) (RLit 34))).

Definition ip_domain : re :=
  RSeq (RLit 91)
  (RSeq (R1to3 (RChar is_digit)) (RSeq (RLit 46)
  (RSeq (R1to3 (RChar is_digit)) (RSeq (RLit 46)
  (RSeq (R1to3 (RChar is_digit)) (RSeq (RLit 46)
  (RSeq (R1to3 (RChar is_digit)) (RLit 93)))))))).

Definition name_domain : re :=
  RSeq (RPlus (RSeq (RPlus (RChar is_label_char)) (RLit 46))) (R2up (RChar is_alpha)).

Definition EmailRegex : re :=
  RSeq local_part (RSeq (RLit 64) (RAlt ip_domain name_domain)).

Abbreviation Email := jsstr (only parsing).

(** [filterEmail(line)]: [match[0]] or [null]. *)
Definition filterEmail (line : jsstr) : option Email := exec EmailRegex line.

Example filterEmail_ex1 : filterEmail (js "  bad@site.com,") = Some (js "bad@site.com").
Proof. vm_compute. reflexivity. Qed.
Example filterEmail_ex2 : filterEmail (js "a@x.com junk b@y.ru") = Some (js "a@x.com").
Proof. vm_compute. reflexivity. Qed.
Example filterEmail_ex3 : filterEmail (js "junk") = None.
Proof. vm_compute. reflexivity. Qed.
Example filterEmail_ex4 : filterEmail (js "<u.v@[1.22.3.44]>") = Some (js "u.v@[1.22.3.44]").
Proof. vm_compute. reflexivity. Qed.

(** ** [String.prototype.split] with a non-empty separator *)

Fixpoint strip_prefix (p s : jsstr) : option jsstr :=
  match p, s with
  | [], _ => Some s
  | a :: p', b :: s' => if N.eqb a b then strip_prefix p' s' else None
  | _ :: _, [] => None
  end.

(** [cur] is the current piece, reversed. *)
Fixpoint split_go (sep : jsstr) (fuel : nat) (s cur : jsstr) : list jsstr :=
  match fuel with
  | O => [rev cur ++ s]
  | S f =>
      match s with
      | [] => [rev cur]
      | c :: s' =>
          match strip_prefix sep s with
          | Some rest => rev cur :: split_go sep f rest []
          | None => split_go sep f s' (c :: cur)
          end
      end
  end.

Definition js_split (sep s : jsstr) : list jsstr := split_go sep (length s) s [].

Example js_split_ex : js_split (js "/") (js "a//b/") = [js "a"; js ""; js "b"; js ""].
Proof. reflexivity. Qed.

(** ** The data model *)

Inductive Status := dirty | broken | clean.

#[global] Instance Status_eq_dec : EqDecision Status.
Proof. solve_decision. Defined.

Abbreviation Tag := jsstr (only parsing).
Abbreviation Locale := jsstr (only parsing).

(** A [Set] object is a heap cell; [Set] contents are kept in insertion order. *)
Abbreviation loc := positive (only parsing).

(** [type Record = { tags: Tags, locale?: Locale, status: Status, lastDelivered?: string }].
    [status] is [None] for a record loaded from a legacy file that carries
    neither the [broken] nor the [clean] flag and no [status] field. *)
Record Rec := mkRec {
  tags : loc;
  locale : option Locale;
  status : option Status;
  lastDelivered : option jsstr;
}.

(** The [EmailDB] object ([this.db]) together with the heap of [Set] objects. *)
Record State := mkState {
  db : gmap Email Rec;
  sets : gmap loc (list Tag);
}.

Definition empty_state : State := mkState ∅ ∅.

(** JavaScript truthiness of an optional string. *)
Definition truthy (s : option jsstr) : bool :=
  match s with Some (_ :: _) => true | _ => false end.

(** Operations of [Set] on its contents. *)
Definition set_of (h : gmap loc (list Tag)) (l : loc) : list Tag := default [] (h !! l).
Definition set_has (c : list Tag) (x : Tag) : bool := bool_decide (x ∈ c).
Definition set_add (c : list Tag) (x : Tag) : list Tag := if set_has c x then c else c ++ [x].
(** [new Set(xs)] *)
Definition new_Set (xs : list Tag) : list Tag := fold_left set_add xs [].

(** Allocation of a new [Set] object. *)
Definition alloc (h : gmap loc (list Tag)) (c : list Tag) : loc * gmap loc (list Tag) :=
  let l := fresh (dom h) in (l, <[l := c]> h).

(** Every record points to an allocated [Set]. *)
Definition wf (st : State) : Prop :=
  forall e r, db st !! e = Some r -> tags r ∈ dom (sets st).

(** ** [EmailDB.insert] *)

(** One iteration of [for(const tag of Array.from(tags))]:
    [if(!res.tags.has(tag)) { res.tags.add(tag); addedTags = true }]. *)
Definition add_tag (acc : list Tag * bool) (tag : Tag) : list Tag * bool :=
  let '(c, added) := acc in
  if set_has c tag then (c, added) else (set_add c tag, true).

(** The body of the line loop from [const res = this.db[email]] on. *)
Definition insert_into (tags_in : list Tag) (locale_in : option Locale)
    (st : State) (email : Email) (res : Rec) (inserted updated : nat) : State * (nat * nat) :=
  let '(c, addedTags) := fold_left add_tag tags_in (set_of (sets st) (tags res), false) in
  let h := if addedTags then <[tags res := c]> (sets st) else sets st in
  (* res.tags = new Set([ ...res.tags, ...tags ]) *)
  let '(l', h) := alloc h (new_Set (c ++ tags_in)) in
  let updated :=
    if addedTags || (truthy locale_in && negb (bool_decide (locale_in = locale res)))
    then S updated else updated in
  let res' := mkRec l' (if truthy locale_in then locale_in else locale res)
                (status res) (lastDelivered res) in
  (mkState (<[email := res']> (db st)) h, (inserted, updated)).

(** One iteration of [for(let line of lines)]; the counters are
    [(inserted, updated)]. *)
Definition insert_line (tags_in : list Tag) (locale_in : option Locale)
    (acc : State * (nat * nat)) (line : jsstr) : State * (nat * nat) :=
  let '(st, (inserted, updated)) := acc in
  match filterEmail line with
  | None => acc
  | Some email =>
      let '(st, inserted) :=
        match db st !! email with
        | None =>
            let '(l, h) := alloc (sets st) [] in
            (mkState (<[email := mkRec l None (Some dirty) None]> (db st)) h, S inserted)
        | Some _ => (st, inserted)
        end in
      match db st !! email with
      | None => (st, (inserted, updated))
      | Some res => insert_into tags_in locale_in st email res inserted updated
      end
  end.

(** [insert({filename, tags, locale})]: [content] is the text of the file. *)
Definition insert (st : State) (content : jsstr) (tags_in : list Tag) (locale_in : option Locale)
    : State * (nat * nat) :=
  fold_left (insert_line tags_in locale_in) (js_split [10] content) (st, (0, 0)%nat).

Definition nl : string := String (ascii_of_nat 10) EmptyString.
Definition scenario_src : jsstr := js ("a@x.com" ++ nl ++ "junk" ++ nl ++ "b@y.ru").

Example insert_ex : snd (insert empty_state scenario_src [js "t1"] None) = (2, 2)%nat.
Proof. vm_compute. reflexivity. Qed.

(** The keys of an object in the order [for(const email in this.db)]
    visits them. *)
Definition for_in_keys {A} (m : gmap Email A) : list Email := (map_to_list m).*1.

(** ** [EmailDB.cleanup] *)

(** One iteration of [for(const email in this.db)]. A key deleted before it
    is visited is skipped; [order] is the key list taken when the loop starts
    (a key added during the loop is not visited). The counters are
    [(deleted, fixed)]. *)
Definition cleanup_step (acc : gmap Email Rec * (nat * nat)) (email : Email)
    : gmap Email Rec * (nat * nat) :=
  let '(d, (deleted, fixed)) := acc in
  match d !! email with
  | None => acc
  | Some rec =>
      match filterEmail email with
      | None => (delete email d, (S deleted, fixed))
      | Some filtered =>
          if bool_decide (filtered = email) then acc
          else (delete email (<[filtered := rec]> d), (deleted, S fixed))
      end
  end.

Definition cleanup_in (order : list Email) (st : State) : State * (nat * nat) :=
  let '(d, r) := fold_left cleanup_step order (db st, (0, 0)%nat) in
  (mkState d (sets st), r).

Definition cleanup (st : State) : State * (nat * nat) := cleanup_in (for_in_keys (db st)) st.

(** ** [EmailDB.setStatus] *)

Definition setStatus_step (emails : list Email) (status_in : Status)
    (acc : gmap Email Rec * nat) (email : Email) : gmap Email Rec * nat :=
  let '(d, res) := acc in
  match d !! email with
  | None => acc
  | Some rec =>
      if bool_decide (email ∈ emails) then
        (<[email := mkRec (tags rec) (locale rec) (Some status_in) (lastDelivered rec)]> d,
         if bool_decide (status rec = Some status_in) then res else S res)
      else acc
  end.

Definition setStatus (st : State) (emails : list Email) (status_in : Status) : State * nat :=
  let '(d, res) := fold_left (setStatus_step emails status_in) (for_in_keys (db st)) (db st, 0%nat) in
  (mkState d (sets st), res).

(** ** [EmailDB.setLastDelivered] *)

Section LastDelivered.
(** A [moment] value and its [format()]. *)
Variable Moment : Type.
Variable format : Moment -> jsstr.

Definition setLastDelivered_step (ts : Moment) (acc : gmap Email Rec * nat) (email : Email)
    : gmap Email Rec * nat :=
  let '(d, res) := acc in
  match d !! email with
  | None => acc
  | Some rec =>
      (<[email := mkRec (tags rec) (locale rec) (status rec) (Some (format ts))]> d, S res)
  end.

Definition setLastDelivered (st : State) (emails : list Email) (ts : Moment) : State * nat :=
  let '(d, res) := fold_left (setLastDelivered_step ts) emails (db st, 0%nat) in
  (mkState d (sets st), res).

End LastDelivered.

(** ** [EmailDB.lookup] *)

Definition ends_with (suf s : jsstr) : bool :=
  match strip_prefix (rev suf) (rev s) with Some _ => true | None => false end.

(** [guessEmailLocale]: [/\.ru$/]. *)
Definition guessEmailLocale (email : Email) : Locale :=
  if ends_with (js ".ru") email then js "ru" else js "en".

(** [_.intersection(xs, ys)]: the distinct elements of [xs] found in [ys],
    in the order of [xs]. *)
Definition lodash_intersection (xs ys : list Tag) : list Tag :=
  fold_left (fun acc x => if bool_decide (x ∈ ys) && negb (bool_decide (x ∈ acc))
                          then acc ++ [x] else acc) xs [].

(** The arguments of [lookup]; [q_tags] is the contents of the [tags] set. *)
Record Query := mkQuery {
  q_tags : list Tag;
  q_locale : option Locale;
  statusOnly : option Status;
  coldDays : option Z;
}.

(** A result entry [{ tags: new Set(recTags), locale: calculatedLocale }]. *)
Record Entry := mkEntry { e_tags : loc; e_locale : Locale }.

Section Lookup.
(** [moment().diff(s, 'days')] at the time of the call; [None] is [NaN]. *)
Variable days_since : jsstr -> option Z.

Definition status_only_gate (q : Query) (rec : Rec) : bool :=
  match statusOnly q with
  | Some s => bool_decide (status rec = Some s)
  | None => true
  end.

Definition broken_gate (q : Query) (rec : Rec) : bool :=
  negb ((match statusOnly q with None => true | Some s => negb (bool_decide (s = broken)) end)
        && bool_decide (status rec = Some broken)).

(** [if(coldDays && rec.lastDelivered) { d = ...; if(d < coldDays) continue }] *)
Definition cold_gate (q : Query) (rec : Rec) : bool :=
  match coldDays q with
  | Some c =>
      if negb (Z.eqb c 0) && truthy (lastDelivered rec) then
        match days_since (default [] (lastDelivered rec)) with
        | Some d => negb (Z.ltb d c)
        | None => true
        end
      else true
  | None => true
  end.

Definition tag_gate (h : gmap loc (list Tag)) (q : Query) (rec : Rec) : bool :=
  negb (Nat.ltb (length (lodash_intersection (set_of h (tags rec)) (q_tags q)))
                (length (q_tags q))).

(** [rec.locale || this.guessEmailLocale(email)] *)
Definition calculated_locale (email : Email) (rec : Rec) : Locale :=
  match locale rec with
  | Some (c :: s) => c :: s
  | _ => guessEmailLocale email
  end.

Definition locale_gate (q : Query) (email : Email) (rec : Rec) : bool :=
  match q_locale q with
  | Some l => bool_decide (calculated_locale email rec = l)
  | None => true
  end.

Definition passes (h : gmap loc (list Tag)) (q : Query) (email : Email) (rec : Rec) : bool :=
  status_only_gate q rec && broken_gate q rec && cold_gate q rec && tag_gate h q rec
  && locale_gate q email rec.

Definition lookup_step (q : Query) (acc : gmap Email Entry * gmap loc (list Tag))
    (kv : Email * Rec) : gmap Email Entry * gmap loc (list Tag) :=
  let '(result, h) := acc in
  let '(email, rec) := kv in
  if passes h q email rec then
    let '(l, h) := alloc h (new_Set (set_of h (tags rec))) in
    (<[email := mkEntry l (calculated_locale email rec)]> result, h)
  else acc.

Definition lookup (st : State) (q : Query) : gmap Email Entry * State :=
  let '(result, h) := fold_left (lookup_step q) (map_to_list (db st)) (∅, sets st) in
  (result, mkState (db st) h).

End Lookup.

Definition no_days (s : jsstr) : option Z := None.

Example lookup_ex1 :
  dom (fst (lookup no_days (fst (insert empty_state scenario_src [js "t1"] None))
                   (mkQuery [js "t1"] None None None)))
  = {[ js "a@x.com"; js "b@y.ru" ]}.
Proof. vm_compute. reflexivity. Qed.

Example lookup_ex2 :
  dom (fst (lookup no_days (fst (insert empty_state scenario_src [js "t1"] None))
                   (mkQuery [js "t1"] (Some (js "ru")) None None)))
  = {[ js "b@y.ru" ]}.
Proof. vm_compute. reflexivity. Qed.

(** ** [pageAll] *)

Section PageAll.
Variable Item : Type.

(** A response: [response.items] and [response.paging.next] ([None] when
    undefined). *)
Record Response := mkResponse { items : list Item; paging_next : option jsstr }.

(** [mg.get(url)] or [fn({limit})]. *)
Inductive Request := FirstPage | GetUrl (url : jsstr).

(** [Threw]: the TypeError of [undefined.split]; [NoMoreResponses]: the
    provider stopped answering (outside the modelled run). *)
Inductive Outcome := Done (result : list Item) | Threw | NoMoreResponses.

Definition mailgun_prefix : jsstr := js "https://api.mailgun.net/v3".

(** The provider answers the successive requests with [pages]; the run
    returns the outcome and the requests made with their answers. *)
Fixpoint pageAll_go (url : option jsstr) (result : list Item) (pages : list Response)
    : Outcome * list (Request * Response) :=
  match pages with
  | [] => (NoMoreResponses, [])
  | response :: pages' =>
      let req := if truthy url then GetUrl (default [] url) else FirstPage in
      if Nat.eqb (length (items response)) 0 then (Done result, [(req, response)])
      else
        let result := result ++ items response in
        match paging_next response with
        | None => (Threw, [(req, response)])
        | Some next =>
            let url := nth_error (js_split mailgun_prefix next) 1 in
            let '(o, trace) := pageAll_go url result pages' in
            (o, (req, response) :: trace)
        end
  end.

Definition pageAll (pages : list Response) : Outcome * list (Request * Response) :=
  pageAll_go None [] pages.

End PageAll.

Arguments mkResponse {Item} items paging_next.
Arguments items {Item} r.
Arguments paging_next {Item} r.
Arguments Done {Item} result.
Arguments Threw {Item}.
Arguments NoMoreResponses {Item}.
Arguments pageAll {Item} pages.
Arguments pageAll_go {Item} url result pages.


Example pageAll_ex :
  pageAll [mkResponse [1; 2]%nat (Some (js "https://api.mailgun.net/v3/x/p2"));
           mkResponse [3]%nat (Some (js "https://api.mailgun.net/v3/x/p3"));
           mkResponse [] (Some (js "https://api.mailgun.net/v3/x/p3"));
           mkResponse [4]%nat None]
  = (Done [1; 2; 3]%nat,
     [(FirstPage, mkResponse [1; 2]%nat (Some (js "https://api.mailgun.net/v3/x/p2")));
      (GetUrl (js "/x/p2"), mkResponse [3]%nat (Some (js "https://api.mailgun.net/v3/x/p3")));
      (GetUrl (js "/x/p3"), mkResponse [] (Some (js "https://api.mailgun.net/v3/x/p3")))]).
Proof. vm_compute. reflexivity. Qed.

(** ** [EmailDB.load] *)

(** JavaScript values as [JSON.parse] produces them, and the [Set] objects of
    the rehydrated records. An array carries its elements and its other own
    properties. Numbers are restricted to integers. *)
Inductive jsv :=
| VNull
| VBool (b : bool)
| VNum (n : Z)
| VStr (s : jsstr)
| VArr (elts : list jsv) (props : list (jsstr * jsv))
| VObj (props : list (jsstr * jsv))
| VSet (elts : list jsv).

(** The outcome of the [try] block [JSON.parse(fs.readFileSync(DB_FILE, 'utf-8'))]:
    an exception (missing or unreadable file, content that is not JSON) or
    the parsed value. *)
Inductive ReadParse := ReadOrParseError | Parsed (v : jsv).

Definition js_truthy (v : jsv) : bool :=
  match v with
  | VNull => false
  | VBool b => b
  | VNum n => negb (Z.eqb n 0)
  | VStr s => match s with [] => false | _ => true end
  | _ => true
  end.

Definition get_prop (k : jsstr) (ps : list (jsstr * jsv)) : option jsv :=
  match find (fun kv => bool_decide (kv.1 = k)) ps with Some kv => Some kv.2 | None => None end.

Fixpoint set_prop (k : jsstr) (v : jsv) (ps : list (jsstr * jsv)) : list (jsstr * jsv) :=
  match ps with
  | [] => [(k, v)]
  | (k', v') :: ps' => if bool_decide (k' = k) then (k, v) :: ps' else (k', v') :: set_prop k v ps'
  end.

Definition delete_prop (k : jsstr) (ps : list (jsstr * jsv)) : list (jsstr * jsv) :=
  List.filter (fun kv => negb (bool_decide (kv.1 = k))) ps.

(** SameValueZero, the equality of [Set]; parsed objects are all distinct. *)
Definition same_value_zero (a b : jsv) : bool :=
  match a, b with
  | VNull, VNull => true
  | VBool x, VBool y => Bool.eqb x y
  | VNum x, VNum y => Z.eqb x y
  | VStr x, VStr y => bool_decide (x = y)
  | _, _ => false
  end.

Definition set_add_v (c : list jsv) (x : jsv) : list jsv :=
  if existsb (same_value_zero x) c then c else c ++ [x].

Definition is_high (c : N) : bool := (55296 <=? c) && (c <=? 56319).
Definition is_low (c : N) : bool := (56320 <=? c) && (c <=? 57343).

(** The values the string iterator yields: code points, a surrogate pair
    being one element. *)
Fixpoint string_iter (s : jsstr) : list jsv :=
  match s with
  | [] => []
  | c :: s' =>
      match s' with
      | d :: s'' => if is_high c && is_low d then VStr [c; d] :: string_iter s''
                    else VStr [c] :: string_iter s'
      | [] => [VStr [c]]
      end
  end.

(** [new Set(v)]; [None] is the TypeError of a non-iterable argument. *)
Definition new_Set_v (v : option jsv) : option jsv :=
  match v with
  | None | Some VNull => Some (VSet [])
  | Some (VArr elts _) => Some (VSet (fold_left set_add_v elts []))
  | Some (VStr s) => Some (VSet (fold_left set_add_v (string_iter s) []))
  | Some (VSet elts) => Some (VSet elts)
  | Some (VBool _) | Some (VNum _) | Some (VObj _) => None
  end.

(** The body of [for(const email in this.db)] on the properties of one
    record: tags rehydrated, legacy flags folded into [status]. *)
Definition fix_record_props (ps : list (jsstr * jsv)) : option (list (jsstr * jsv)) :=
  match new_Set_v (get_prop (js "tags") ps) with
  | None => None
  | Some t =>
      let ps := set_prop (js "tags") t ps in
      let ps :=
        if js_truthy (default VNull (get_prop (js "broken") ps)) then set_prop (js "status") (VStr (js "broken")) ps
        else if js_truthy (default VNull (get_prop (js "clean") ps)) then set_prop (js "status") (VStr (js "clean")) ps
        else ps in
      Some (delete_prop (js "dirty") (delete_prop (js "clean") ps))
  end.

(** The module is an ES module, hence strict code: assigning [rec.tags] on a
    primitive throws, as does reading [rec.tags] of [null]. *)
Definition fix_record (rec : jsv) : option jsv :=
  match rec with
  | VNull | VBool _ | VNum _ | VStr _ => None
  | VObj ps => option_map VObj (fix_record_props ps)
  | VArr elts ps =>
      match fix_record_props ps with Some ps' => Some (VArr elts ps') | None => None end
  | VSet elts => Some (VSet elts)
  end.

Fixpoint fix_all (l : list jsv) : option (list jsv) :=
  match l with
  | [] => Some []
  | v :: l' => match fix_record v, fix_all l' with Some v', Some l'' => Some (v' :: l'') | _, _ => None end
  end.

Fixpoint fix_fields (ps : list (jsstr * jsv)) : option (list (jsstr * jsv)) :=
  match ps with
  | [] => Some []
  | (k, v) :: ps' => match fix_record v, fix_fields ps' with Some v', Some ps'' => Some ((k, v') :: ps'') | _, _ => None end
  end.

(** [load()]: the new [this.db], or [None] when [load] throws. *)
Definition load (rp : ReadParse) : option jsv :=
  let db0 := match rp with ReadOrParseError => VObj [] | Parsed v => v end in
  match db0 with
  | VObj ps => option_map VObj (fix_fields ps)
  | VArr elts ps =>
      match fix_all elts, fix_fields ps with Some e', Some p' => Some (VArr e' p') | _, _ => None end
  | VStr [] => Some (VStr [])
  | VStr _ => None
  | v => Some v
  end.

Example load_ex :
  load (Parsed (VObj [(js "a@x.com", VObj [(js "tags", VArr [VStr (js "t"); VStr (js "t")] []);
                                          (js "clean", VBool true)])]))
  = Some (VObj [(js "a@x.com", VObj [(js "tags", VSet [VStr (js "t")]);
                                    (js "status", VStr (js "clean"))])]).
Proof. vm_compute. reflexivity. Qed.

(** ** [readEmailFile] and [saveEmailFile] *)


(** [readEmailFile(filename)]: [content] is the text of the file, [None]
    when [readFileSync] throws. *)
Definition readEmailFile (content : option jsstr) : list Email :=
  match content with
  | None => []
  | Some c =>
      fold_left (fun result line =>
                   match filterEmail line with
                   | Some email => if truthy (Some email) then result ++ [email] else result
                   | None => result
                   end) (js_split [10] c) []
  end.


(** ** [EmailDB.allTags] *)

(** The values the counters of [result] take: numbers and [NaN]. *)
Inductive PropVal := PNum (n : nat) | PNaN.

(** What reading [result[tag]] gives: an own property, an inherited
    property of [Object.prototype], or [undefined]. *)
Inductive ReadVal := RUndef | RNumv (n : nat) | RNaNv | RInherited.

(** The properties every object inherits from [Object.prototype] (all of
    them functions), apart from the accessor [__proto__]. *)
Definition object_proto_keys : list Tag :=
  map js ["constructor"; "__defineGetter__"; "__defineSetter__"; "hasOwnProperty";
          "__lookupGetter__"; "__lookupSetter__"; "isPrototypeOf"; "propertyIsEnumerable";
          "toString"; "valueOf"; "toLocaleString"]%string.

Definition proto_key : Tag := js "__proto__".

Definition read_prop (result : gmap Tag PropVal) (tag : Tag) : ReadVal :=
  match result !! tag with
  | Some (PNum n) => RNumv n
  | Some PNaN => RNaNv
  | None => if bool_decide (tag = proto_key) || bool_decide (tag ∈ object_proto_keys)
            then RInherited else RUndef
  end.

(** Assignment [result[tag] = v]; the [__proto__] setter ignores a value
    that is not an object. *)
Definition write_prop (result : gmap Tag PropVal) (tag : Tag) (v : PropVal) : gmap Tag PropVal :=
  if bool_decide (tag = proto_key) then result else <[tag := v]> result.

Definition read_truthy (v : ReadVal) : bool :=
  match v with
  | RUndef | RNaNv => false
  | RNumv n => negb (Nat.eqb n 0)
  | RInherited => true
  end.

(** [x++] stores [ToNumber(x) + 1]. *)
Definition incr (v : ReadVal) : PropVal :=
  match v with RNumv n => PNum (S n) | _ => PNaN end.

(** [if(!result[tag]) { result[tag] = 0 } result[tag]++] *)
Definition count_tag (result : gmap Tag PropVal) (tag : Tag) : gmap Tag PropVal :=
  let result := if negb (read_truthy (read_prop result tag)) then write_prop result tag (PNum 0)
                else result in
  write_prop result tag (incr (read_prop result tag)).

Definition allTags (st : State) : gmap Tag PropVal :=
  fold_left (fun result '(email, rec) => fold_left count_tag (set_of (sets st) (tags rec)) result)
    (map_to_list (db st)) ∅.

(** ** [EmailDB.tags], [EmailDB.totalEmails] *)

(** [tags(email)]: the contents of the stored set, or of a new empty one. *)
Definition db_tags (st : State) (email : Email) : list Tag :=
  match db st !! email with
  | None => new_Set []
  | Some rec => set_of (sets st) (tags rec)
  end.

Definition totalEmails (st : State) : nat := size (db st).

(** ** [EmailDB.lookupByRegexp] *)


(** ** [EmailDB.emailToString] *)



(** ** The loop of the [update_delivered] command *)

Section UpdateDelivered.
Variable Moment : Type.
Variable format : Moment -> jsstr.
(** An event's [timestamp], and [moment.utc(item.timestamp * 1000)]. *)
Variable Timestamp : Type.
Variable to_moment : Timestamp -> Moment.

(** [for(const item of response) res += db.setLastDelivered([ item.recipient ], ts)];
    an item is its [recipient] and [timestamp]. *)
Definition update_delivered_loop (st : State) (items : list (Email * Timestamp)) : State * nat :=
  fold_left (fun '(st, res) '(recipient, timestamp) =>
               let '(st', n) := setLastDelivered Moment format st [recipient] (to_moment timestamp) in
               (st', (res + n)%nat))
    items (st, 0%nat).

End UpdateDelivered.

(* ===================================================================== *)
(** * Proofs *)

(** ** Properties of the matcher *)

Module RegexFacts.

Definition longer_than (t : jsstr) (x : jsstr) : bool := Nat.leb (length t) (length x).

Lemma flat_map_ext_in {A B} (f g : A -> list B) (l : list A) :
  (forall x, In x l -> f x = g x) -> flat_map f l = flat_map g l.
Proof.
  induction l as [|a l IH]; intros H; simpl; [reflexivity|].
  rewrite (H a) by (left; reflexivity). f_equal. apply IH. intros x Hx. apply H. right. exact Hx.
Qed.

Lemma flat_map_nil {A B} (f : A -> list B) (l : list A) :
  (forall x, In x l -> f x = []) -> flat_map f l = [].
Proof.
  induction l as [|a l IH]; intros H; simpl; [reflexivity|].
  rewrite (H a) by (left; reflexivity). apply IH. intros x Hx. apply H. right. exact Hx.
Qed.

Lemma filter_flat_map {A B} (p : B -> bool) (g : A -> list B) (l : list A) :
  List.filter p (flat_map g l) = flat_map (fun x => List.filter p (g x)) l.
Proof. induction l as [|a l IH]; simpl; [reflexivity|]. rewrite List.filter_app, IH. reflexivity. Qed.

Lemma flat_map_map' {A B C} (f : A -> B) (g : B -> list C) (l : list A) :
  flat_map g (map f l) = flat_map (fun x => g (f x)) l.
Proof. induction l as [|a l IH]; simpl; [reflexivity|]. rewrite IH. reflexivity. Qed.

Lemma map_flat_map' {A B C} (f : B -> C) (g : A -> list B) (l : list A) :
  map f (flat_map g l) = flat_map (fun x => map f (g x)) l.
Proof. induction l as [|a l IH]; simpl; [reflexivity|]. rewrite map_app, IH. reflexivity. Qed.

(** Elements rejected by [p] contribute nothing. *)
Lemma flat_map_filter_drop {A B} (p : A -> bool) (g : A -> list B) (l : list A) :
  (forall x, In x l -> p x = false -> g x = []) ->
  flat_map g l = flat_map g (List.filter p l).
Proof.
  induction l as [|a l IH]; intros H; simpl; [reflexivity|].
  destruct (p a) eqn:Hp; simpl.
  - f_equal. apply IH. intros x Hx. apply H. right. exact Hx.
  - rewrite (H a (or_introl eq_refl) Hp). apply IH. intros x Hx. apply H. right. exact Hx.
Qed.

Definition suffix_of (x s : jsstr) : Prop := exists p, s = p ++ x.

Lemma suffix_of_trans x y z : suffix_of x y -> suffix_of y z -> suffix_of x z.
Proof. intros [p ->] [q ->]. exists (q ++ p). rewrite app_assoc. reflexivity. Qed.

Lemma suffix_of_length x s : suffix_of x s -> (length x <= length s)%nat.
Proof. intros [p ->]. rewrite length_app. lia. Qed.

Section Star.
Variable m : jsstr -> list jsstr.
Hypothesis m_suffix : forall s x, In x (m s) -> suffix_of x s.

Lemma star_m_suffix f s x : In x (star_m m f s) -> suffix_of x s.
Proof.
  revert s x. induction f as [|f IH]; intros s x Hin; simpl in Hin.
  - destruct Hin as [<-|[]]. exists []. reflexivity.
  - apply in_app_or in Hin as [Hin|[<-|[]]].
    + apply in_flat_map in Hin as (s' & Hs' & Hx).
      destruct (Nat.ltb (length s') (length s)); [|destruct Hx].
      eapply suffix_of_trans; [apply IH; exact Hx | apply m_suffix; exact Hs'].
    + exists []. reflexivity.
Qed.

Lemma star_m_fuel f g s :
  (length s <= f)%nat -> (length s <= g)%nat -> star_m m f s = star_m m g s.
Proof.
  revert g s. induction f as [|f IH]; intros g s Hf Hg.
  - destruct s; [|simpl in Hf; lia].
    destruct g as [|g]; simpl; [reflexivity|].
    rewrite flat_map_nil; [reflexivity|].
    intros x Hx. apply m_suffix, suffix_of_length in Hx. simpl in Hx.
    destruct (Nat.ltb_spec (length x) 0); [lia|reflexivity].
  - destruct g as [|g].
    + destruct s; [|simpl in Hg; lia]. simpl.
      rewrite flat_map_nil; [reflexivity|].
      intros x Hx. apply m_suffix, suffix_of_length in Hx. simpl in Hx.
      destruct (Nat.ltb_spec (length x) 0); [lia|reflexivity].
    + simpl. f_equal. apply flat_map_ext_in. intros x Hx.
      destruct (Nat.ltb_spec (length x) (length s)); [|reflexivity].
      apply IH; lia.
Qed.

Variable t : jsstr.
Hypothesis m_trunc :
  forall w, List.filter (longer_than t) (m (w ++ t)) = map (fun u => u ++ t) (m w).

Lemma filter_shorter_nil l :
  (forall x, In x l -> (length x < length t)%nat) -> List.filter (longer_than t) l = [].
Proof.
  induction l as [|a l IH]; intros H; simpl; [reflexivity|].
  unfold longer_than at 1. destruct (Nat.leb_spec (length t) (length a)).
  - specialize (H a (or_introl eq_refl)). lia.
  - apply IH. intros x Hx. apply H. right. exact Hx.
Qed.

Lemma star_m_trunc f w :
  (length (w ++ t) <= f)%nat ->
  List.filter (longer_than t) (star_m m f (w ++ t)) = map (fun u => u ++ t) (star_m m f w).
Proof.
  revert w. induction f as [|f IH]; intros w Hlen.
  - rewrite length_app in Hlen. destruct w, t; simpl in Hlen; try lia. reflexivity.
  - simpl. rewrite List.filter_app, map_app. simpl.
    assert (Hself : longer_than t (w ++ t) = true).
    { unfold longer_than. apply Nat.leb_le. rewrite length_app. lia. }
    rewrite Hself. f_equal.
    rewrite filter_flat_map.
    rewrite (flat_map_filter_drop (longer_than t)).
    2:{ intros x Hx Hp. unfold longer_than in Hp. apply Nat.leb_gt in Hp.
        destruct (Nat.ltb (length x) (length (w ++ t))); [|reflexivity].
        apply filter_shorter_nil. intros y Hy. apply star_m_suffix, suffix_of_length in Hy. lia. }
    rewrite m_trunc, flat_map_map', map_flat_map'.
    apply flat_map_ext_in. intros u Hu.
    rewrite !length_app.
    destruct (Nat.ltb_spec (length u) (length w)).
    + destruct (Nat.ltb_spec (length u + length t) (length w + length t)); [|lia].
      apply IH. rewrite length_app in *. lia.
    + destruct (Nat.ltb_spec (length u + length t) (length w + length t)); [lia|reflexivity].
Qed.

End Star.

Lemma mt_suffix r : forall s x, In x (mt r s) -> suffix_of x s.
Proof.
  induction r as [p| |r1 IH1 r2 IH2|r1 IH1 r2 IH2|r1 IH1]; intros s x Hin; simpl in Hin.
  - destruct s as [|c s]; [destruct Hin|].
    destruct (p c); [|destruct Hin]. destruct Hin as [<-|[]]. exists [c]. reflexivity.
  - destruct Hin as [<-|[]]. exists []. reflexivity.
  - apply in_flat_map in Hin as (y & Hy & Hx).
    eapply suffix_of_trans; [apply IH2; exact Hx | apply IH1; exact Hy].
  - apply in_app_or in Hin as [Hin|Hin]; [apply IH1|apply IH2]; exact Hin.
  - eapply star_m_suffix; [exact IH1 | exact Hin].
Qed.

(** Matching on a prefix [w] of [w ++ t] finds exactly the matches on
    [w ++ t] that stop inside [w], in the same order. *)
Lemma mt_trunc r : forall w t,
  List.filter (longer_than t) (mt r (w ++ t)) = map (fun u => u ++ t) (mt r w).
Proof.
  induction r as [p| |r1 IH1 r2 IH2|r1 IH1 r2 IH2|r1 IH1]; intros w t; simpl.
  - destruct w as [|c w]; simpl.
    + destruct t as [|c t]; [reflexivity|]. destruct (p c); [|reflexivity].
      cbn [List.filter]. unfold longer_than.
      rewrite (proj2 (Nat.leb_gt _ _)) by (simpl; lia). reflexivity.
    + destruct (p c); [|reflexivity].
      cbn [List.filter]. unfold longer_than.
      rewrite (proj2 (Nat.leb_le _ _)) by (rewrite length_app; lia). reflexivity.
  - cbn [List.filter]. unfold longer_than.
    rewrite (proj2 (Nat.leb_le _ _)) by (rewrite length_app; lia). reflexivity.
  - rewrite filter_flat_map.
    rewrite (flat_map_filter_drop (longer_than t)).
    2:{ intros x Hx Hp. unfold longer_than in Hp. apply Nat.leb_gt in Hp.
        apply filter_shorter_nil. intros y Hy. apply mt_suffix, suffix_of_length in Hy. lia. }
    rewrite IH1, flat_map_map', map_flat_map'.
    apply flat_map_ext_in. intros u _. apply IH2.
  - rewrite List.filter_app, map_app, IH1, IH2. reflexivity.
  - rewrite (star_m_fuel (mt r1) (mt_suffix r1) (length w) (length (w ++ t)) w)
      by (rewrite ?length_app; lia).
    apply star_m_trunc; [apply mt_suffix | exact (fun w0 => IH1 w0 t) | lia].
Qed.

(** The first match of a pattern, matched again, is found whole at once. *)
Lemma exec_idem r s m : exec r s = Some m -> exec r m = Some m.
Proof.
  induction s as [|c s IH]; intros H.
  - simpl in H. destruct (mt r []) as [|rest l] eqn:E; [discriminate|].
    injection H as <-. simpl. rewrite E. reflexivity.
  - unfold exec in H; fold exec in H.
    destruct (mt r (c :: s)) as [|rest l] eqn:E; [apply IH; exact H|].
    injection H as Hm.
    assert (Hs : suffix_of rest (c :: s)) by (apply (mt_suffix r); rewrite E; left; reflexivity).
    destruct Hs as [p Hp].
    assert (Hfirst : forall s0, s0 = p ++ rest -> firstn (length s0 - length rest) s0 = p).
    { intros s0 ->. rewrite length_app, Nat.add_sub, firstn_app, Nat.sub_diag, firstn_O,
        app_nil_r, firstn_all. reflexivity. }
    specialize (Hfirst _ Hp). cbn [length] in Hfirst. rewrite Hfirst in Hm. subst m.
    pose proof (mt_trunc r p rest) as T. rewrite <- Hp, E in T. simpl in T.
    unfold longer_than at 1 in T. rewrite Nat.leb_refl in T.
    destruct (mt r p) as [|u l'] eqn:Ep; simpl in T; [discriminate|].
    injection T as Hu _.
    assert (u = []) as ->.
    { destruct u as [|x u]; [reflexivity|]. apply (f_equal (@length N)) in Hu. simpl in Hu.
      rewrite length_app in Hu. lia. }
    destruct p as [|x p]; simpl; rewrite Ep; simpl; rewrite ?Nat.sub_0_r, ?firstn_all; reflexivity.
Qed.

End RegexFacts.

(** [filterEmail] is idempotent on its results. *)
Lemma filterEmail_idem line e : filterEmail line = Some e -> filterEmail e = Some e.
Proof. apply RegexFacts.exec_idem. Qed.

(** ** Cleanup *)

Section CleanupProofs.

Lemma cleanup_fold_inv order : forall d c,
  (forall k, is_Some (d !! k) -> filterEmail k = Some k \/ k ∈ order) ->
  forall k r, (fold_left cleanup_step order (d, c)).1 !! k = Some r -> filterEmail k = Some k.
Proof.
  induction order as [|email rest IH]; intros d [deleted fixed] Hinv.
  - intros k r Hk. simpl in Hk. destruct (Hinv k) as [H|H]; [eexists; exact Hk|exact H|].
    apply elem_of_nil in H. contradiction.
  - simpl. destruct (d !! email) as [rec|] eqn:Hd.
    2:{ apply IH. intros k Hk. destruct (Hinv k Hk) as [H|H]; [left; exact H|].
        apply elem_of_cons in H as [->|H]; [destruct Hk as [? Hk]; congruence|].
        right; exact H. }
    destruct (filterEmail email) as [filtered|] eqn:Hf.
    + case_bool_decide as Heq.
      * apply IH. intros k Hk. destruct (Hinv k Hk) as [H|H]; [left; exact H|].
        apply elem_of_cons in H as [->|H]; [left; rewrite Hf, Heq; reflexivity|right; exact H].
      * apply IH. intros k Hk.
        destruct (decide (k = email)) as [->|Hne]; [rewrite lookup_delete_eq in Hk; destruct Hk as [? Hk]; discriminate|].
        rewrite lookup_delete_ne in Hk by congruence.
        destruct (decide (k = filtered)) as [->|Hne2].
        { left. eapply filterEmail_idem. exact Hf. }
        rewrite lookup_insert_ne in Hk by congruence.
        destruct (Hinv k Hk) as [H|H]; [left; exact H|].
        apply elem_of_cons in H as [H|H]; [congruence|right; exact H].
    + apply IH. intros k Hk.
      destruct (decide (k = email)) as [->|Hne]; [rewrite lookup_delete_eq in Hk; destruct Hk as [? Hk]; discriminate|].
      rewrite lookup_delete_ne in Hk by congruence.
      destruct (Hinv k Hk) as [H|H]; [left; exact H|].
      apply elem_of_cons in H as [H|H]; [congruence|right; exact H].
Qed.

Lemma cleanup_fold_noop order : forall d c,
  (forall k r, d !! k = Some r -> filterEmail k = Some k) ->
  fold_left cleanup_step order (d, c) = (d, c).
Proof.
  induction order as [|email rest IH]; intros d [deleted fixed] H; simpl; [reflexivity|].
  destruct (d !! email) as [rec|] eqn:Hd; [|apply IH; exact H].
  rewrite (H email rec Hd). rewrite bool_decide_eq_true_2 by reflexivity. apply IH. exact H.
Qed.

End CleanupProofs.

(** C2: After one Cleanup pass every remaining key is its own normal form under
    [filterEmail], and a second pass deletes and fixes nothing. The first
    pass visits the keys in any order that lists every key (the order of
    [for ... in]); the second pass in any order at all. *)
Theorem cleanup_leaves_normal_keys (order order' : list Email) (st : State) :
  (forall k, is_Some (db st !! k) -> k ∈ order) ->
  (forall k r, db (fst (cleanup_in order st)) !! k = Some r -> filterEmail k = Some k) /\
  snd (cleanup_in order' (fst (cleanup_in order st))) = (0, 0)%nat.
Proof.
  intros Hcover.
  assert (Hnorm : forall k r, db (fst (cleanup_in order st)) !! k = Some r -> filterEmail k = Some k).
  { unfold cleanup_in. destruct (fold_left cleanup_step order (db st, (0, 0)%nat)) as [d c] eqn:E.
    simpl. intros k r Hk.
    refine (cleanup_fold_inv order (db st) (0, 0)%nat _ k r _).
    - intros k' Hk'. right. apply Hcover, Hk'.
    - rewrite E. exact Hk. }
  split; [exact Hnorm|].
  unfold cleanup_in at 1. rewrite cleanup_fold_noop by exact Hnorm. reflexivity.
Qed.

Definition cleanup_scenario : State :=
  mkState {[ js "  bad@site.com," := mkRec 1 None (Some dirty) None ]} {[ 1%positive := [js "t"] ]}.

Lemma cleanup_leaves_normal_keys_witness :
  (forall k, is_Some (db cleanup_scenario !! k) -> k ∈ [js "  bad@site.com,"]) /\
  snd (cleanup_in [js "  bad@site.com,"] cleanup_scenario) = (0, 1)%nat /\
  ((forall k r, db (fst (cleanup_in [js "  bad@site.com,"] cleanup_scenario)) !! k = Some r ->
               filterEmail k = Some k) /\
   snd (cleanup_in [] (fst (cleanup_in [js "  bad@site.com,"] cleanup_scenario))) = (0, 0)%nat).
Proof.
  assert (Hc : forall k, is_Some (db cleanup_scenario !! k) -> k ∈ [js "  bad@site.com,"]).
  { intros k [r Hk]. unfold cleanup_scenario in Hk. simpl in Hk.
    apply lookup_singleton_Some in Hk as [-> _]. left. }
  split; [exact Hc|]. split; [vm_compute; reflexivity|].
  apply (cleanup_leaves_normal_keys [js "  bad@site.com,"] [] cleanup_scenario Hc).
Defined.

Example cleanup_scenario_result :
  db (fst (cleanup cleanup_scenario)) = {[ js "bad@site.com" := mkRec 1 None (Some dirty) None ]}.
Proof. vm_compute. reflexivity. Qed.

(** ** SetStatus *)

Definition with_status (s : Status) (r : Rec) : Rec :=
  mkRec (tags r) (locale r) (Some s) (lastDelivered r).

Definition status_changes (emails : list Email) (s : Status) (kv : Email * Rec) : bool :=
  bool_decide (kv.1 ∈ emails) && negb (bool_decide (status kv.2 = Some s)).

Lemma filter_all_false {A} (p : A -> bool) (l : list A) :
  (forall x, In x l -> p x = false) -> List.filter p l = [].
Proof.
  induction l as [|a l IH]; intros H; simpl; [reflexivity|].
  rewrite (H a) by (left; reflexivity). apply IH. intros x Hx. apply H. right. exact Hx.
Qed.

Lemma setStatus_step_eq emails s d res k :
  setStatus_step emails s (d, res) k =
  match d !! k with
  | None => (d, res)
  | Some rec =>
      if bool_decide (k ∈ emails) then
        (<[k := with_status s rec]> d, if bool_decide (status rec = Some s) then res else S res)
      else (d, res)
  end.
Proof. reflexivity. Qed.

Lemma setStatus_fold (emails : list Email) (s : Status) (l : list (Email * Rec)) :
  forall d res, NoDup l.*1 -> (forall k v, (k, v) ∈ l -> d !! k = Some v) ->
  (forall e, (fold_left (setStatus_step emails s) l.*1 (d, res)).1 !! e =
             if bool_decide (e ∈ l.*1 /\ e ∈ emails) then with_status s <$> d !! e else d !! e) /\
  (fold_left (setStatus_step emails s) l.*1 (d, res)).2 =
    (res + length (List.filter (status_changes emails s) l))%nat.
Proof.
  induction l as [|[k v] l IH]; intros d res Hnd Hl.
  - split; [reflexivity|simpl; lia].
  - rewrite fmap_cons in Hnd |- *. cbn [fst fold_left].
    apply NoDup_cons in Hnd as [Hk Hnd]. cbn [fst] in Hk.
    rewrite setStatus_step_eq, (Hl k v) by (left).
    assert (Hl' : forall d' : gmap Email Rec, (forall k', k' ≠ k -> d' !! k' = d !! k') ->
                  forall k0 v0, (k0, v0) ∈ l -> d' !! k0 = Some v0).
    { intros d' Hd' k0 v0 Hin. rewrite Hd'; [apply Hl; right; exact Hin|].
      intros ->. apply Hk. apply list_elem_of_fmap. exists (k, v0). split; [reflexivity|exact Hin]. }
    case_bool_decide as Hin.
    + destruct (IH (<[k := with_status s v]> d) (if bool_decide (status v = Some s) then res else S res) Hnd)
        as [H1 H2].
      { apply Hl'. intros k' Hne. apply lookup_insert_ne. congruence. }
      split.
      * intros e. unfold with_status in H1. rewrite H1.
        destruct (decide (e = k)) as [->|Hne].
        -- rewrite lookup_insert_eq, (Hl k v) by left.
           rewrite (bool_decide_eq_false_2 (k ∈ l.*1 /\ k ∈ emails)) by tauto.
           rewrite bool_decide_eq_true_2 by (split; [left|exact Hin]). reflexivity.
        -- rewrite lookup_insert_ne by congruence.
           assert (Hiff : e ∈ k :: l.*1 /\ e ∈ emails <-> e ∈ l.*1 /\ e ∈ emails)
             by (rewrite elem_of_cons; split; [intros [[?|?] ?]; [congruence|tauto]|tauto]).
           rewrite (bool_decide_ext _ _ Hiff). reflexivity.
      * rewrite H2. cbn [List.filter].
        change (status_changes emails s (k, v)) with
          (bool_decide (k ∈ emails) && negb (bool_decide (status v = Some s))).
        rewrite (bool_decide_eq_true_2 (k ∈ emails)) by exact Hin.
        case_bool_decide; simpl; lia.
    + destruct (IH d res Hnd) as [H1 H2]; [apply Hl'; reflexivity|].
      split.
      * intros e. rewrite H1. destruct (decide (e = k)) as [->|Hne].
        -- rewrite !bool_decide_eq_false_2 by tauto. reflexivity.
        -- assert (Hiff : e ∈ k :: l.*1 /\ e ∈ emails <-> e ∈ l.*1 /\ e ∈ emails)
             by (rewrite elem_of_cons; split; [intros [[?|?] ?]; [congruence|tauto]|tauto]).
           rewrite (bool_decide_ext _ _ Hiff). reflexivity.
      * rewrite H2. cbn [List.filter].
        change (status_changes emails s (k, v)) with
          (bool_decide (k ∈ emails) && negb (bool_decide (status v = Some s))).
        rewrite (bool_decide_eq_false_2 (k ∈ emails)) by exact Hin. reflexivity.
Qed.

(** C3: SetStatus sets the status of every listed address present in the
    directory, returns the number of those whose status changed, and a
    second application with the same arguments returns 0. *)
Theorem setStatus_counts_changes (st : State) (emails : list Email) (s : Status) :
  (forall e, db (fst (setStatus st emails s)) !! e =
             (fun r => if bool_decide (e ∈ emails) then with_status s r else r) <$> db st !! e) /\
  snd (setStatus st emails s) =
    length (List.filter (status_changes emails s) (map_to_list (db st))) /\
  snd (setStatus (fst (setStatus st emails s)) emails s) = 0%nat.
Proof.
  assert (Hgen : forall st0 : State,
    (forall e, db (fst (setStatus st0 emails s)) !! e =
               (fun r => if bool_decide (e ∈ emails) then with_status s r else r) <$> db st0 !! e) /\
    snd (setStatus st0 emails s) = length (List.filter (status_changes emails s) (map_to_list (db st0)))).
  { intros st0. unfold setStatus, for_in_keys.
    destruct (setStatus_fold emails s (map_to_list (db st0)) (db st0) 0%nat)
      as [H1 H2]; [apply NoDup_fst_map_to_list|intros k v; apply elem_of_map_to_list|].
    destruct (fold_left (setStatus_step emails s) (map_to_list (db st0)).*1 (db st0, 0%nat)) as [d r].
    simpl in *. split; [|exact H2].
    intros e. rewrite H1. destruct (db st0 !! e) as [r0|] eqn:He; simpl.
    - assert (e ∈ (map_to_list (db st0)).*1).
      { apply list_elem_of_fmap. exists (e, r0). split; [reflexivity|]. apply elem_of_map_to_list. exact He. }
      case_bool_decide as Hin; case_bool_decide; simpl; tauto || reflexivity.
    - case_bool_decide; reflexivity. }
  destruct (Hgen st) as [H1 H2]. split; [exact H1|]. split; [exact H2|].
  destruct (Hgen (fst (setStatus st emails s))) as [_ H3]. rewrite H3.
  rewrite filter_all_false; [reflexivity|].
  intros [e r] Hin. apply list_elem_of_In in Hin. apply elem_of_map_to_list in Hin.
  rewrite H1 in Hin. destruct (db st !! e) as [r0|]; simpl in Hin; [|discriminate].
  injection Hin as <-. unfold status_changes. simpl.
  case_bool_decide as He; simpl; [|reflexivity].
  rewrite bool_decide_eq_true_2 by reflexivity. reflexivity.
Qed.

Definition status_scenario : State :=
  mkState {[ js "c@z.com" := mkRec 1 None (Some dirty) None ]} {[ 1%positive := [] ]}.

Example setStatus_scenario :
  snd (setStatus status_scenario [js "c@z.com"] clean) = 1%nat /\
  snd (setStatus (fst (setStatus status_scenario [js "c@z.com"] clean)) [js "c@z.com"] clean) = 0%nat.
Proof. vm_compute. split; reflexivity. Qed.

(** ** SetLastDelivered *)

Definition with_last_delivered (v : jsstr) (r : Rec) : Rec :=
  mkRec (tags r) (locale r) (status r) (Some v).

Lemma setLastDelivered_fold (Moment : Type) (format : Moment -> jsstr) (ts : Moment)
    (emails : list Email) : forall d res,
  (fold_left (setLastDelivered_step Moment format ts) emails (d, res)).2 =
    (res + length (List.filter (fun e => bool_decide (is_Some (d !! e))) emails))%nat /\
  (forall e, (fold_left (setLastDelivered_step Moment format ts) emails (d, res)).1 !! e =
     (fun r => if bool_decide (e ∈ emails) then with_last_delivered (format ts) r else r) <$> d !! e).
Proof.
  induction emails as [|e0 rest IH]; intros d res.
  - simpl. split; [lia|]. intros e. destruct (d !! e); reflexivity.
  - change (fold_left (setLastDelivered_step Moment format ts) (e0 :: rest) (d, res)) with
      (fold_left (setLastDelivered_step Moment format ts) rest
         (setLastDelivered_step Moment format ts (d, res) e0)).
    cbn [List.filter].
    assert (Hiff : forall e, e <> e0 -> (e ∈ e0 :: rest <-> e ∈ rest))
      by (intros e Hne; rewrite elem_of_cons; split; [intros [?|?]; [congruence|tauto]|tauto]).
    destruct (d !! e0) as [r0|] eqn:He0.
    + assert (Hs : setLastDelivered_step Moment format ts (d, res) e0 =
                   (<[e0 := with_last_delivered (format ts) r0]> d, S res))
        by (unfold setLastDelivered_step; rewrite He0; reflexivity).
      rewrite Hs.
      destruct (IH (<[e0 := with_last_delivered (format ts) r0]> d) (S res)) as [H1 H2].
      rewrite (bool_decide_eq_true_2 (is_Some (Some r0))) by (eexists; reflexivity).
      split.
      * rewrite H1. simpl. rewrite Nat.add_succ_r. do 3 f_equal.
        apply filter_ext. intros e. apply bool_decide_ext.
        destruct (decide (e = e0)) as [->|Hne].
        -- rewrite lookup_insert_eq, He0. split; intros _; eexists; reflexivity.
        -- rewrite lookup_insert_ne by congruence. reflexivity.
      * intros e. rewrite H2.
        destruct (decide (e = e0)) as [->|Hne].
        -- rewrite lookup_insert_eq, He0. simpl.
           rewrite (bool_decide_eq_true_2 (e0 ∈ e0 :: rest)) by left.
           case_bool_decide; reflexivity.
        -- rewrite lookup_insert_ne by congruence.
           rewrite (bool_decide_ext _ _ (Hiff e Hne)). reflexivity.
    + assert (Hs : setLastDelivered_step Moment format ts (d, res) e0 = (d, res))
        by (unfold setLastDelivered_step; rewrite He0; reflexivity).
      rewrite Hs.
      destruct (IH d res) as [H1 H2].
      rewrite (bool_decide_eq_false_2 (is_Some (@None Rec))) by (intros [? ?]; discriminate).
      split; [exact H1|].
      intros e. rewrite H2. destruct (decide (e = e0)) as [->|Hne].
      -- rewrite He0. reflexivity.
      -- rewrite (bool_decide_ext _ _ (Hiff e Hne)). reflexivity.
Qed.

(** C6: SetLastDelivered overwrites [lastDelivered] with the formatted timestamp
    for every listed address present in the directory, and returns the
    number of list entries present in the directory, whatever their stored
    value was; absent addresses are skipped and not counted. *)
Theorem setLastDelivered_counts_every_update (Moment : Type) (format : Moment -> jsstr)
    (st : State) (emails : list Email) (ts : Moment) :
  snd (setLastDelivered Moment format st emails ts) =
    length (List.filter (fun e => bool_decide (is_Some (db st !! e))) emails) /\
  (forall e, db (fst (setLastDelivered Moment format st emails ts)) !! e =
     (fun r => if bool_decide (e ∈ emails) then with_last_delivered (format ts) r else r)
       <$> db st !! e).
Proof.
  unfold setLastDelivered.
  destruct (setLastDelivered_fold Moment format ts emails (db st) 0%nat) as [H1 H2].
  destruct (fold_left (setLastDelivered_step Moment format ts) emails (db st, 0%nat)) as [d r].
  simpl in *. split; [exact H1|exact H2].
Qed.

Example setLastDelivered_noop_counted :
  snd (setLastDelivered jsstr (fun s => s)
         (mkState {[ js "c@z.com" := mkRec 1 None (Some clean) (Some (js "T")) ]} {[ 1%positive := [] ]})
         [js "c@z.com"; js "absent@z.com"] (js "T")) = 1%nat.
Proof. vm_compute. reflexivity. Qed.

(** ** Pagination *)

Lemma pageAll_go_first_empty {Item} (pages : list (Response Item)) : forall url result pre e post,
  map snd (snd (pageAll_go url result pages)) = pre ++ e :: post ->
  Forall (fun p => items p <> []) pre -> items e = [] ->
  fst (pageAll_go url result pages) = Done (result ++ concat (map items pre)) /\ post = [].
Proof.
  induction pages as [|page pages IH]; intros url result pre e post Htr Hpre He.
  - simpl in Htr. destruct pre; discriminate.
  - cbn [pageAll_go] in Htr |- *.
    destruct (Nat.eqb_spec (length (items page)) 0) as [Hz|Hnz].
    + simpl in Htr. destruct pre as [|p pre].
      * injection Htr as H1 H2. subst. cbn [map concat fst]. rewrite app_nil_r. split; reflexivity.
      * injection Htr as -> Htr. destruct pre; discriminate.
    + destruct (paging_next page) as [next|].
      * destruct (pageAll_go (nth_error (js_split mailgun_prefix next) 1) (result ++ items page) pages)
          as [o trace] eqn:E.
        cbn [map snd fst] in Htr |- *.
        destruct pre as [|p pre].
        -- injection Htr as H1 _. subst. rewrite He in Hnz. simpl in Hnz. lia.
        -- injection Htr as -> Htr. apply Forall_cons in Hpre as [_ Hpre].
           specialize (IH (nth_error (js_split mailgun_prefix next) 1) (result ++ items p) pre e post).
           rewrite E in IH. cbn [fst snd] in IH.
           destruct (IH Htr Hpre He) as [Ho Hpost]. split; [|exact Hpost].
           rewrite Ho. simpl. rewrite app_assoc. reflexivity.
      * simpl in Htr. destruct pre as [|p pre].
        -- injection Htr as H1 _. subst. rewrite He in Hnz. simpl in Hnz. lia.
        -- injection Htr as -> Htr. destruct pre; discriminate.
Qed.

(** C8: If some page fetched by the drain has an empty item list, the drain
    returns the items of the pages before the first such page, in page
    order, and that page is the last one fetched, whatever its cursor. *)
Theorem pageAll_stops_at_first_empty {Item} (pages : list (Response Item))
    (pre : list (Response Item)) (e : Response Item) (post : list (Response Item)) :
  map snd (snd (pageAll pages)) = pre ++ e :: post ->
  Forall (fun p => items p <> []) pre -> items e = [] ->
  fst (pageAll pages) = Done (concat (map items pre)) /\ post = [].
Proof. intros H1 H2 H3. apply (pageAll_go_first_empty pages None [] pre e post H1 H2 H3). Qed.

Definition pages_scenario : list (Response nat) :=
  [mkResponse [1; 2]%nat (Some (js "https://api.mailgun.net/v3/x/p2"));
   mkResponse [3]%nat (Some (js "https://api.mailgun.net/v3/x/p3"));
   mkResponse [] (Some (js "https://api.mailgun.net/v3/x/p3"));
   mkResponse [4]%nat None].

Lemma pageAll_stops_at_first_empty_witness :
  fst (pageAll pages_scenario) = Done [1; 2; 3]%nat /\ [] = @nil (Response nat).
Proof.
  apply (pageAll_stops_at_first_empty pages_scenario
           [mkResponse [1; 2]%nat (Some (js "https://api.mailgun.net/v3/x/p2"));
            mkResponse [3]%nat (Some (js "https://api.mailgun.net/v3/x/p3"))]
           (mkResponse [] (Some (js "https://api.mailgun.net/v3/x/p3"))) []).
  - vm_compute. reflexivity.
  - repeat constructor; discriminate.
  - reflexivity.
Defined.

(** ** Insert *)

Section InsertProofs.

Lemma set_add_elem (c : list Tag) (x t : Tag) : t ∈ set_add c x <-> t ∈ c \/ t = x.
Proof.
  unfold set_add, set_has. case_bool_decide.
  - split; [tauto|]. intros [?| ->]; assumption.
  - rewrite elem_of_app, list_elem_of_singleton. tauto.
Qed.

Lemma fold_set_add_elem (xs c : list Tag) (t : Tag) :
  t ∈ fold_left set_add xs c <-> t ∈ c \/ t ∈ xs.
Proof.
  revert c. induction xs as [|x xs IH]; intros c; simpl.
  - rewrite elem_of_nil. tauto.
  - rewrite IH, set_add_elem, elem_of_cons. tauto.
Qed.

Lemma new_Set_elem (xs : list Tag) (t : Tag) : t ∈ new_Set xs <-> t ∈ xs.
Proof. unfold new_Set. rewrite fold_set_add_elem, elem_of_nil. tauto. Qed.

Lemma add_loop_elem (xs c : list Tag) (b : bool) (t : Tag) :
  t ∈ (fold_left add_tag xs (c, b)).1 <-> t ∈ c \/ t ∈ xs.
Proof.
  revert c b. induction xs as [|x xs IH]; intros c b; simpl.
  - rewrite elem_of_nil. tauto.
  - unfold set_has. case_bool_decide as Hx.
    + rewrite IH, elem_of_cons. split; [tauto|]. intros [?|[->|?]]; tauto.
    + rewrite IH, elem_of_cons. unfold set_add, set_has.
      rewrite (bool_decide_eq_false_2 _ Hx), elem_of_app, list_elem_of_singleton. tauto.
Qed.

Lemma add_loop_true (xs c : list Tag) : (fold_left add_tag xs (c, true)).2 = true.
Proof.
  revert c. induction xs as [|x xs IH]; intros c; simpl; [reflexivity|].
  destruct (set_has c x); apply IH.
Qed.

Lemma add_loop_from_empty (xs : list Tag) :
  (fold_left add_tag xs ([], false)).2 = bool_decide (xs <> []).
Proof.
  destruct xs as [|x xs]; [reflexivity|].
  rewrite (bool_decide_eq_true_2 (x :: xs <> [])) by discriminate.
  assert (H : add_tag ([], false) x = (set_add [] x, true))
    by (unfold add_tag, set_has; rewrite bool_decide_eq_false_2 by apply not_elem_of_nil; reflexivity).
  cbn [fold_left]. rewrite H. apply add_loop_true.
Qed.

Lemma add_loop_noop (xs c : list Tag) :
  (forall t, t ∈ xs -> t ∈ c) -> fold_left add_tag xs (c, false) = (c, false).
Proof.
  induction xs as [|x xs IH]; intros H; simpl; [reflexivity|].
  unfold set_has. rewrite (bool_decide_eq_true_2 (x ∈ c) (H x ltac:(left))).
  apply IH. intros t Ht. apply H. right. exact Ht.
Qed.

Lemma set_of_insert_ne (h : gmap loc (list Tag)) (l l' : loc) (c : list Tag) :
  l <> l' -> set_of (<[l := c]> h) l' = set_of h l'.
Proof. intros Hne. unfold set_of. rewrite lookup_insert_ne by exact Hne. reflexivity. Qed.

Lemma set_of_insert_eq (h : gmap loc (list Tag)) (l : loc) (c : list Tag) :
  set_of (<[l := c]> h) l = c.
Proof. unfold set_of. rewrite lookup_insert_eq. reflexivity. Qed.

Lemma fresh_not_dom (h : gmap loc (list Tag)) (l : loc) : l ∈ dom h -> l <> fresh (dom h).
Proof. intros Hl ->. exact (is_fresh (dom h) Hl). Qed.

Variable tags_in : list Tag.
Variable locale_in : option Locale.

(** What a visit of an address does to a store: the heap grows (contents
    of existing sets only gain elements), the other addresses keep their
    records, and the visited one ends up with all the requested tags. *)
Definition grows (st st' : State) (e : Email) : Prop :=
  wf st' /\
  (forall e0, e0 <> e -> db st' !! e0 = db st !! e0) /\
  (forall l t, l ∈ dom (sets st) -> t ∈ set_of (sets st) l -> t ∈ set_of (sets st') l) /\
  (exists r', db st' !! e = Some r' /\ (forall t, t ∈ tags_in -> t ∈ set_of (sets st') (tags r')) /\
     (truthy locale_in = true -> locale r' = locale_in)).

Lemma insert_into_grows (st : State) (e : Email) (res : Rec) (n m : nat) :
  wf st -> db st !! e = Some res ->
  grows st (fst (insert_into tags_in locale_in st e res n m)) e.
Proof.
  intros Hwf He. unfold insert_into.
  destruct (fold_left add_tag tags_in (set_of (sets st) (tags res), false)) as [c added] eqn:Ec.
  assert (Hc : forall t, t ∈ c <-> t ∈ set_of (sets st) (tags res) \/ t ∈ tags_in)
    by (intros t; rewrite <- (add_loop_elem tags_in _ false t), Ec; reflexivity).
  set (h := if added then <[tags res := c]> (sets st) else sets st).
  assert (Hdom : forall l, l ∈ dom (sets st) -> l ∈ dom h).
  { intros l Hl. unfold h. destruct added; [|exact Hl].
    rewrite dom_insert, elem_of_union. right. exact Hl. }
  assert (Hgrow : forall l t, l ∈ dom (sets st) -> t ∈ set_of (sets st) l -> t ∈ set_of h l).
  { intros l t Hl Ht. unfold h. destruct added; [|exact Ht].
    destruct (decide (tags res = l)) as [<-|Hne].
    - rewrite set_of_insert_eq. apply Hc. left. exact Ht.
    - rewrite set_of_insert_ne by exact Hne. exact Ht. }
  unfold alloc, grows. cbn [fst db sets].
  split; [|split; [|split]].
  - intros e0 r0 H0. cbn [db sets] in *. rewrite dom_insert, elem_of_union.
    destruct (decide (e0 = e)) as [->|Hne].
    + rewrite lookup_insert_eq in H0. injection H0 as <-. left. apply elem_of_singleton. reflexivity.
    + rewrite lookup_insert_ne in H0 by congruence. right. apply Hdom. exact (Hwf _ _ H0).
  - intros e0 Hne. rewrite lookup_insert_ne by congruence. reflexivity.
  - intros l t Hl Ht. rewrite set_of_insert_ne by (apply not_eq_sym, fresh_not_dom, Hdom, Hl).
    apply Hgrow; assumption.
  - eexists. rewrite lookup_insert_eq. split; [reflexivity|]. cbn [tags locale]. split.
    + intros t Ht. rewrite set_of_insert_eq, new_Set_elem, elem_of_app. right. exact Ht.
    + intros Ht. rewrite Ht. reflexivity.
Qed.

(** The record a new address starts with, and the store it is added to. *)
Definition new_rec_state (st : State) (e : Email) : State :=
  mkState (<[e := mkRec (fresh (dom (sets st))) None (Some dirty) None]> (db st))
          (<[fresh (dom (sets st)) := []]> (sets st)).

Lemma insert_line_new (st : State) (n m : nat) (line : jsstr) (e : Email) :
  filterEmail line = Some e -> db st !! e = None ->
  insert_line tags_in locale_in (st, (n, m)) line =
  insert_into tags_in locale_in (new_rec_state st e) e
    (mkRec (fresh (dom (sets st))) None (Some dirty) None) (S n) m.
Proof.
  intros Hf He. unfold insert_line. rewrite Hf, He. unfold alloc. cbn [db].
  rewrite lookup_insert_eq. reflexivity.
Qed.

Lemma insert_line_old (st : State) (n m : nat) (line : jsstr) (e : Email) (r : Rec) :
  filterEmail line = Some e -> db st !! e = Some r ->
  insert_line tags_in locale_in (st, (n, m)) line = insert_into tags_in locale_in st e r n m.
Proof. intros Hf He. unfold insert_line. rewrite Hf, He. rewrite He. reflexivity. Qed.

Lemma insert_line_skip (acc : State * (nat * nat)) (line : jsstr) :
  filterEmail line = None -> insert_line tags_in locale_in acc line = acc.
Proof. intros Hf. destruct acc as [st [n m]]. unfold insert_line. rewrite Hf. reflexivity. Qed.

Lemma insert_line_grows (st : State) (n m : nat) (line : jsstr) (e : Email) :
  wf st -> filterEmail line = Some e ->
  grows st (fst (insert_line tags_in locale_in (st, (n, m)) line)) e.
Proof.
  intros Hwf Hf. destruct (db st !! e) as [r|] eqn:He.
  - rewrite (insert_line_old st n m line e r Hf He). apply insert_into_grows; assumption.
  - rewrite (insert_line_new st n m line e Hf He).
    set (l := fresh (dom (sets st))).
    assert (Hwf' : wf (new_rec_state st e)).
    { intros e0 r0 H0. unfold new_rec_state in *. cbn [db sets] in *.
      rewrite dom_insert, elem_of_union. destruct (decide (e0 = e)) as [->|Hne].
      - rewrite lookup_insert_eq in H0. injection H0 as <-. left. apply elem_of_singleton. reflexivity.
      - rewrite lookup_insert_ne in H0 by congruence. right. exact (Hwf _ _ H0). }
    destruct (insert_into_grows (new_rec_state st e) e (mkRec l None (Some dirty) None) (S n) m Hwf')
      as [Hw [Hoth [Hg Hr]]].
    { unfold new_rec_state. cbn [db]. apply lookup_insert_eq. }
    split; [exact Hw|split; [|split; [|exact Hr]]].
    + intros e0 Hne. rewrite (Hoth e0 Hne). unfold new_rec_state. cbn [db].
      apply lookup_insert_ne. congruence.
    + intros l0 t Hl Ht. apply Hg.
      * unfold new_rec_state. cbn [sets]. rewrite dom_insert, elem_of_union. right. exact Hl.
      * unfold new_rec_state. cbn [sets]. rewrite set_of_insert_ne by (apply not_eq_sym, fresh_not_dom, Hl).
        exact Ht.
Qed.

(** After a visit, the record of an address has all requested tags. *)
Definition good (st : State) (e : Email) : Prop :=
  exists r, db st !! e = Some r /\ (forall t, t ∈ tags_in -> t ∈ set_of (sets st) (tags r)) /\
    (truthy locale_in = true -> locale r = locale_in).

Lemma good_grows (st st' : State) (e e0 : Email) : wf st -> grows st st' e -> good st e0 -> good st' e0.
Proof.
  intros Hwf [_ [Hoth [Hg Hr]]] [r [Hr0 [Ht Hl]]].
  destruct (decide (e0 = e)) as [->|Hne]; [exact Hr|].
  exists r. rewrite (Hoth e0 Hne). split; [exact Hr0|split; [|exact Hl]].
  intros t Hti. apply Hg; [exact (Hwf _ _ Hr0)|]. apply Ht. exact Hti.
Qed.

Lemma insert_first_run (lines : list jsstr) : forall (acc : State * (nat * nat)),
  wf (fst acc) ->
  wf (fst (fold_left (insert_line tags_in locale_in) lines acc)) /\
  (forall line e, In line lines -> filterEmail line = Some e ->
     good (fst (fold_left (insert_line tags_in locale_in) lines acc)) e) /\
  (forall e, good (fst acc) e -> good (fst (fold_left (insert_line tags_in locale_in) lines acc)) e).
Proof.
  induction lines as [|line lines IH]; intros [st [n m]] Hwf; cbn [fold_left fst] in *.
  - split; [exact Hwf|split; [intros ? ? []|tauto]].
  - destruct (filterEmail line) as [e|] eqn:Hf.
    + pose proof (insert_line_grows st n m line e Hwf Hf) as Hgr.
      destruct (insert_line tags_in locale_in (st, (n, m)) line) as [st' cnt] eqn:Est.
      cbn [fst] in Hgr.
      assert (Hwf' : wf st') by (destruct Hgr; assumption).
      destruct (IH (st', cnt) Hwf') as [Hw [Hl Hk]].
      split; [exact Hw|split].
      * intros line0 e0 [<-|Hin] Hf0.
        -- rewrite Hf in Hf0. injection Hf0 as <-. apply Hk.
           destruct Hgr as [_ [_ [_ Hr]]]. exact Hr.
        -- exact (Hl line0 e0 Hin Hf0).
      * intros e0 Hg. apply Hk. exact (good_grows st st' e e0 Hwf Hgr Hg).
    + rewrite (insert_line_skip (st, (n, m)) line Hf).
      destruct (IH (st, (n, m)) Hwf) as [Hw [Hl Hk]].
      split; [exact Hw|split; [|exact Hk]].
      intros line0 e0 [<-|Hin] Hf0; [congruence|exact (Hl line0 e0 Hin Hf0)].
Qed.

(** A visit of an address that already has all requested tags (and the
    requested locale, if any) only gives its record a fresh copy of its set. *)
Lemma insert_into_noop (st : State) (e : Email) (r : Rec) (n m : nat) :
  (forall t, t ∈ tags_in -> t ∈ set_of (sets st) (tags r)) ->
  (truthy locale_in = true -> locale r = locale_in) ->
  insert_into tags_in locale_in st e r n m =
  (mkState (<[e := mkRec (fresh (dom (sets st))) (locale r) (status r) (lastDelivered r)]> (db st))
           (<[fresh (dom (sets st)) := new_Set (set_of (sets st) (tags r) ++ tags_in)]> (sets st)),
   (n, m)).
Proof.
  intros Ht Hl. unfold insert_into. rewrite (add_loop_noop _ _ Ht). unfold alloc.
  destruct (truthy locale_in) eqn:Htr.
  - rewrite (Hl eq_refl). rewrite bool_decide_eq_true_2 by reflexivity. reflexivity.
  - reflexivity.
Qed.

(** The relation between the store after the first run and the store
    during the second one. *)
Definition same_sets (st1 cur : State) : Prop :=
  wf cur /\
  (forall e, db st1 !! e = None -> db cur !! e = None) /\
  (forall e r1, db st1 !! e = Some r1 -> exists r2, db cur !! e = Some r2 /\
     (forall t, t ∈ set_of (sets cur) (tags r2) <-> t ∈ set_of (sets st1) (tags r1)) /\
     locale r2 = locale r1).

Lemma insert_second_run (st1 : State) (lines : list jsstr) : forall (cur : State) (n m : nat),
  (forall line e, In line lines -> filterEmail line = Some e -> good st1 e) ->
  same_sets st1 cur ->
  let final := fold_left (insert_line tags_in locale_in) lines (cur, (n, m)) in
  snd final = (n, m) /\ same_sets st1 (fst final).
Proof.
  induction lines as [|line lines IH]; intros cur n m Hgood Hsame; cbn [fold_left].
  - split; [reflexivity|exact Hsame].
  - destruct (filterEmail line) as [e|] eqn:Hf.
    + destruct (Hgood line e (or_introl eq_refl) Hf) as [r1 [He1 [Ht1 Hl1]]].
      destruct Hsame as [Hwf [Hnone Hrec]].
      destruct (Hrec e r1 He1) as [r2 [He2 [Hs2 Hl2]]].
      rewrite (insert_line_old cur n m line e r2 Hf He2).
      rewrite (insert_into_noop cur e r2 n m).
      2: { intros t Ht. apply Hs2. apply Ht1. exact Ht. }
      2: { intros Htr. rewrite Hl2. apply Hl1. exact Htr. }
      apply IH.
      * intros line0 e0 Hin Hf0. exact (Hgood line0 e0 (or_intror Hin) Hf0).
      * set (l := fresh (dom (sets cur))). unfold same_sets, wf. cbn [db sets].
        split; [|split].
        -- intros e0 r0 H0. rewrite dom_insert, elem_of_union.
           destruct (decide (e0 = e)) as [->|Hne].
           ++ rewrite lookup_insert_eq in H0. injection H0 as <-. left. apply elem_of_singleton. reflexivity.
           ++ rewrite lookup_insert_ne in H0 by congruence. right. exact (Hwf _ _ H0).
        -- intros e0 H0. destruct (decide (e0 = e)) as [->|Hne].
           ++ rewrite He1 in H0. discriminate.
           ++ rewrite lookup_insert_ne by congruence. exact (Hnone e0 H0).
        -- intros e0 r0 H0. destruct (decide (e0 = e)) as [->|Hne].
           ++ rewrite He1 in H0. injection H0 as <-.
              eexists. rewrite lookup_insert_eq. split; [reflexivity|]. cbn [tags locale].
              split; [|exact Hl2]. intros t. rewrite set_of_insert_eq, new_Set_elem, elem_of_app, Hs2.
              split; [intros [?|?]; [assumption|apply Ht1; assumption]|tauto].
           ++ destruct (Hrec e0 r0 H0) as [r3 [He3 [Hs3 Hl3]]].
              exists r3. rewrite lookup_insert_ne by congruence. split; [exact He3|split; [|exact Hl3]].
              intros t. rewrite set_of_insert_ne by (apply not_eq_sym, fresh_not_dom, (Hwf _ _ He3)).
              apply Hs3.
    + rewrite (insert_line_skip (cur, (n, m)) line Hf). apply IH; [|exact Hsame].
      intros line0 e0 Hin Hf0. exact (Hgood line0 e0 (or_intror Hin) Hf0).
Qed.

End InsertProofs.

(** C1: Counterexample: inserting the two-address file with tags {t1} into the
    empty directory reports [updated = 2], not 0. *)
Lemma insert_new_also_updated :
  snd (insert empty_state scenario_src [js "t1"] None) <> (2, 0)%nat.
Proof. vm_compute. discriminate. Qed.

(** C1 (amended): a line that normalizes to an address absent from the
    directory increments [inserted], and also increments [updated] exactly
    when the supplied tag set is non-empty or a non-empty locale is given. *)
Theorem insert_new_address_counters (tags_in : list Tag) (locale_in : option Locale)
    (st : State) (n m : nat) (line : jsstr) (e : Email) :
  filterEmail line = Some e -> db st !! e = None ->
  snd (insert_line tags_in locale_in (st, (n, m)) line) =
    (S n, if bool_decide (tags_in <> []) || truthy locale_in then S m else m).
Proof.
  intros Hf He. rewrite (insert_line_new tags_in locale_in st n m line e Hf He).
  unfold insert_into, new_rec_state. cbn [sets tags].
  rewrite set_of_insert_eq.
  pose proof (add_loop_from_empty tags_in) as Hadd.
  destruct (fold_left add_tag tags_in ([], false)) as [c added]. cbn [snd] in Hadd. subst added.
  unfold alloc. cbn [snd locale].
  destruct (truthy locale_in) eqn:Htr.
  - destruct locale_in as [l|]; [|discriminate].
    rewrite (bool_decide_eq_false_2 (Some l = None)) by discriminate.
    rewrite !orb_true_r. reflexivity.
  - rewrite !orb_false_r. reflexivity.
Qed.

Lemma insert_new_address_counters_witness :
  filterEmail (js "a@x.com") = Some (js "a@x.com") /\ db empty_state !! js "a@x.com" = None /\
  snd (insert_line [js "t1"] None (empty_state, (0, 0)%nat) (js "a@x.com")) = (1, 1)%nat.
Proof.
  split; [vm_compute; reflexivity|split; [reflexivity|]].
  apply (insert_new_address_counters [js "t1"] None empty_state 0 0 (js "a@x.com") (js "a@x.com"));
    vm_compute; reflexivity.
Defined.

(** C5: Insert is idempotent: on a well-formed directory, running Insert a
    second time with the same content, tags and locale reports
    [inserted = 0, updated = 0], creates no address, and leaves every
    record's tag set with the same elements as after the first run. *)
Theorem insert_idempotent (st : State) (content : jsstr) (tags_in : list Tag)
    (locale_in : option Locale) :
  wf st ->
  let st1 := fst (insert st content tags_in locale_in) in
  let st2 := fst (insert st1 content tags_in locale_in) in
  snd (insert st1 content tags_in locale_in) = (0, 0)%nat /\
  (forall e, is_Some (db st2 !! e) <-> is_Some (db st1 !! e)) /\
  (forall e r1, db st1 !! e = Some r1 -> exists r2, db st2 !! e = Some r2 /\
     forall t, t ∈ set_of (sets st2) (tags r2) <-> t ∈ set_of (sets st1) (tags r1)).
Proof.
  intros Hwf st1 st2.
  destruct (insert_first_run tags_in locale_in (js_split [10] content) (st, (0, 0)%nat) Hwf)
    as [Hwf1 [Hgood _]].
  fold (insert st content tags_in locale_in) in Hwf1, Hgood. fold st1 in Hwf1, Hgood.
  assert (Hs : same_sets st1 st1).
  { split; [exact Hwf1|split; [tauto|]]. intros e r1 H. exists r1. tauto. }
  destruct (insert_second_run tags_in locale_in st1 (js_split [10] content) st1 0 0 Hgood Hs)
    as [Hcnt [Hwf2 [Hnone Hrec]]].
  fold (insert st1 content tags_in locale_in) in Hcnt, Hwf2, Hnone, Hrec. fold st2 in Hwf2, Hnone, Hrec.
  split; [exact Hcnt|split].
  - intros e. split.
    + intros [r2 H2]. destruct (db st1 !! e) eqn:E; [eexists; reflexivity|].
      rewrite (Hnone e E) in H2. discriminate.
    + intros [r1 H1]. destruct (Hrec e r1 H1) as [r2 [H2 _]]. rewrite H2. eexists; reflexivity.
  - intros e r1 H1. destruct (Hrec e r1 H1) as [r2 [H2 [Hs2 _]]]. exists r2. split; assumption.
Qed.

(** A decision procedure for [wf]. *)
Definition wf_b (st : State) : bool :=
  forallb (fun '(e, r) => bool_decide (tags r ∈ dom (sets st))) (map_to_list (db st)).

Lemma wf_b_wf (st : State) : wf_b st = true -> wf st.
Proof.
  unfold wf_b. rewrite forallb_forall. intros H e r He.
  apply elem_of_map_to_list in He. apply list_elem_of_In in He.
  specialize (H _ He). cbn in H. apply bool_decide_eq_true_1 in H. exact H.
Qed.

(** ** Lookup *)

Section LookupProofs.
Variable days_since : jsstr -> option Z.
Variable q : Query.

Lemma tag_gate_agree (h1 h2 : gmap loc (list Tag)) (rec : Rec) :
  set_of h1 (tags rec) = set_of h2 (tags rec) -> tag_gate h1 q rec = tag_gate h2 q rec.
Proof. intros H. unfold tag_gate. rewrite H. reflexivity. Qed.

Lemma passes_agree (h1 h2 : gmap loc (list Tag)) (email : Email) (rec : Rec) :
  set_of h1 (tags rec) = set_of h2 (tags rec) ->
  passes days_since h1 q email rec = passes days_since h2 q email rec.
Proof. intros H. unfold passes. rewrite (tag_gate_agree h1 h2 rec H). reflexivity. Qed.

(** What a result entry holds: the resolved locale, and a set allocated
    outside [h] with the elements of the record's set. *)
Definition entry_ok (h h' : gmap loc (list Tag)) (email : Email) (rec : Rec) (ent : Entry) : Prop :=
  e_locale ent = calculated_locale email rec /\ (e_tags ent ∉ dom h) /\
  h' !! e_tags ent = Some (new_Set (set_of h (tags rec))).

Variable h0 : gmap loc (list Tag).

Lemma lookup_fold (L : list (Email * Rec)) : forall (res : gmap Email Entry) (hc : gmap loc (list Tag)),
  (forall l, l ∈ dom h0 -> hc !! l = h0 !! l) ->
  let '(res', h') := fold_left (lookup_step days_since q) L (res, hc) in
  (forall l, l ∈ dom hc -> h' !! l = hc !! l) /\
  (forall k, k ∉ L.*1 -> res' !! k = res !! k) /\
  (NoDup L.*1 -> forall k v, (k, v) ∈ L -> tags v ∈ dom h0 ->
     if passes days_since h0 q k v then exists ent, res' !! k = Some ent /\ entry_ok h0 h' k v ent
     else res' !! k = res !! k).
Proof.
  induction L as [|[k0 v0] L IH]; intros res hc Hagree; cbn [fold_left].
  - split; [reflexivity|split; [reflexivity|]]. intros _ k v Hin. apply elem_of_nil in Hin. contradiction.
  - assert (Hset : forall v, tags v ∈ dom h0 -> set_of hc (tags v) = set_of h0 (tags v))
      by (intros v Hv; unfold set_of; rewrite (Hagree _ Hv); reflexivity).
    assert (Hdom0 : forall l, l ∈ dom h0 -> l ∈ dom hc).
    { intros l Hl. apply elem_of_dom. rewrite (Hagree _ Hl). apply elem_of_dom. exact Hl. }
    destruct (lookup_step days_since q (res, hc) (k0, v0)) as [res1 hc1] eqn:Estep.
    assert (Hstep :
      (if passes days_since hc q k0 v0 then
         res1 = <[k0 := mkEntry (fresh (dom hc)) (calculated_locale k0 v0)]> res /\
         hc1 = <[fresh (dom hc) := new_Set (set_of hc (tags v0))]> hc
       else res1 = res /\ hc1 = hc)).
    { unfold lookup_step in Estep. destruct (passes days_since hc q k0 v0);
        unfold alloc in Estep; injection Estep as <- <-; split; reflexivity. }
    assert (Hhc1 : forall l, l ∈ dom hc -> hc1 !! l = hc !! l).
    { intros l Hl. destruct (passes days_since hc q k0 v0); destruct Hstep as [_ ->]; [|reflexivity].
      apply lookup_insert_ne. apply not_eq_sym, fresh_not_dom, Hl. }
    assert (Hagree1 : forall l, l ∈ dom h0 -> hc1 !! l = h0 !! l)
      by (intros l Hl; rewrite (Hhc1 l (Hdom0 l Hl)); apply Hagree; exact Hl).
    specialize (IH res1 hc1 Hagree1).
    destruct (fold_left (lookup_step days_since q) L (res1, hc1)) as [res' h'].
    destruct IH as [IHh [IHk IHin]].
    assert (Hdom1 : forall l, l ∈ dom hc -> l ∈ dom hc1).
    { intros l Hl. apply elem_of_dom. rewrite (Hhc1 l Hl). apply elem_of_dom. exact Hl. }
    split; [|split].
    + intros l Hl. rewrite (IHh l (Hdom1 l Hl)). apply Hhc1. exact Hl.
    + intros k Hk. rewrite fmap_cons in Hk. cbn [fst] in Hk. apply not_elem_of_cons in Hk as [Hne Hk].
      rewrite (IHk k Hk). destruct (passes days_since hc q k0 v0); destruct Hstep as [-> _]; [|reflexivity].
      apply lookup_insert_ne. congruence.
    + intros Hnd k v Hin Hv. rewrite fmap_cons in Hnd. cbn [fst] in Hnd.
      apply NoDup_cons in Hnd as [Hk0 Hnd].
      apply elem_of_cons in Hin as [Heq|Hin].
      * injection Heq as Hk Hv'. subst k v. rewrite (IHk k0 Hk0).
        rewrite <- (passes_agree hc h0 k0 v0 (Hset v0 Hv)).
        destruct (passes days_since hc q k0 v0); destruct Hstep as [Hr Hh].
        -- eexists. rewrite Hr, lookup_insert_eq. split; [reflexivity|].
           unfold entry_ok. cbn [e_tags e_locale]. split; [reflexivity|split].
           ++ intros Hin0. apply (is_fresh (dom hc)). apply Hdom0. exact Hin0.
           ++ rewrite IHh.
              ** rewrite Hh, lookup_insert_eq, (Hset v0 Hv). reflexivity.
              ** rewrite Hh, dom_insert, elem_of_union, elem_of_singleton. left. reflexivity.
        -- rewrite Hr. reflexivity.
      * assert (Hne : k <> k0).
        { intros ->. apply Hk0. apply list_elem_of_fmap. exists (k0, v). split; [reflexivity|exact Hin]. }
        specialize (IHin Hnd k v Hin Hv).
        destruct (passes days_since h0 q k v).
        -- destruct IHin as [ent [Hent [Hl [Hf Ht]]]]. exists ent. split; [exact Hent|].
           split; [exact Hl|split; [exact Hf|exact Ht]].
        -- rewrite IHin. destruct (passes days_since hc q k0 v0); destruct Hstep as [-> _]; [|reflexivity].
           apply lookup_insert_ne. congruence.
Qed.

End LookupProofs.

(** The result of [lookup] and its effect on the store. *)
Lemma lookup_spec (days_since : jsstr -> option Z) (st : State) (q : Query) :
  wf st ->
  let '(result, st') := lookup days_since st q in
  db st' = db st /\
  (forall l, l ∈ dom (sets st) -> sets st' !! l = sets st !! l) /\
  (forall k, match db st !! k with
             | None => result !! k = None
             | Some v =>
                 if passes days_since (sets st) q k v
                 then exists ent, result !! k = Some ent /\ entry_ok (sets st) (sets st') k v ent
                 else result !! k = None
             end).
Proof.
  intros Hwf. unfold lookup.
  pose proof (lookup_fold days_since q (sets st) (map_to_list (db st)) ∅ (sets st) (fun _ _ => eq_refl))
    as Hf.
  destruct (fold_left (lookup_step days_since q) (map_to_list (db st)) (∅, sets st)) as [result h'].
  destruct Hf as [Hh [Hk Hin]]. cbn [db sets].
  split; [reflexivity|split; [exact Hh|]].
  intros k. destruct (db st !! k) as [v|] eqn:Hv.
  - apply elem_of_map_to_list in Hv as Hmem.
    pose proof (Hin (NoDup_fst_map_to_list (db st)) k v Hmem (Hwf k v Hv)) as H.
    destruct (passes days_since (sets st) q k v); [exact H|rewrite H; apply lookup_empty].
  - rewrite Hk; [apply lookup_empty|].
    intros Hk'. apply list_elem_of_fmap in Hk' as [[k' v'] [Heq Hm]]. cbn [fst] in Heq. subst k'.
    apply elem_of_map_to_list in Hm. congruence.
Qed.

Lemma lookup_result_iff (days_since : jsstr -> option Z) (st : State) (q : Query) (k : Email) :
  wf st ->
  is_Some (fst (lookup days_since st q) !! k) <->
  exists v, db st !! k = Some v /\ passes days_since (sets st) q k v = true.
Proof.
  intros Hwf. pose proof (lookup_spec days_since st q Hwf) as H.
  destruct (lookup days_since st q) as [result st']. destruct H as [_ [_ H]]. specialize (H k).
  cbn [fst]. destruct (db st !! k) as [v|].
  - destruct (passes days_since (sets st) q k v) eqn:Hp.
    + destruct H as [ent [He _]]. rewrite He. split; [intros _; exists v; split; [reflexivity|exact Hp]|].
      intros _. eexists; reflexivity.
    + rewrite H. split; [intros [? ?]; discriminate|]. intros [v' [Hv' Hp']]. congruence.
  - rewrite H. split; [intros [? ?]; discriminate|]. intros [v' [Hv' _]]. discriminate.
Qed.

Lemma lodash_fold_spec (xs ys acc : list Tag) :
  NoDup acc ->
  NoDup (fold_left (fun acc x => if bool_decide (x ∈ ys) && negb (bool_decide (x ∈ acc))
                                 then acc ++ [x] else acc) xs acc) /\
  (forall t, t ∈ fold_left (fun acc x => if bool_decide (x ∈ ys) && negb (bool_decide (x ∈ acc))
                                         then acc ++ [x] else acc) xs acc <->
             t ∈ acc \/ (t ∈ xs /\ t ∈ ys)).
Proof.
  revert acc. induction xs as [|x xs IH]; intros acc Hnd; cbn [fold_left].
  - split; [exact Hnd|]. intros t. rewrite elem_of_nil. tauto.
  - destruct (bool_decide (x ∈ ys) && negb (bool_decide (x ∈ acc))) eqn:Hx.
    + apply andb_true_iff in Hx as [Hy Hn]. apply bool_decide_eq_true_1 in Hy.
      apply negb_true_iff, bool_decide_eq_false_1 in Hn.
      assert (Hnd' : NoDup (acc ++ [x])).
      { apply NoDup_app. split; [exact Hnd|split; [|apply NoDup_singleton]].
        intros t Ht Hs. apply list_elem_of_singleton in Hs. subst t. contradiction. }
      destruct (IH _ Hnd') as [H1 H2]. split; [exact H1|].
      intros t. rewrite H2, elem_of_app, list_elem_of_singleton, elem_of_cons.
      split; [intros [[?| ->]|[? ?]]; tauto|intros [?|[[->|?] ?]]; tauto].
    + destruct (IH _ Hnd) as [H1 H2]. split; [exact H1|].
      intros t. rewrite H2, elem_of_cons. split; [intros [?|[? ?]]; tauto|].
      intros [?|[[->|?] ?]]; [tauto| |tauto].
      apply andb_false_iff in Hx as [Hy|Hn].
      * apply bool_decide_eq_false_1 in Hy. contradiction.
      * apply negb_false_iff, bool_decide_eq_true_1 in Hn. left. exact Hn.
Qed.

Lemma lodash_intersection_spec (xs ys : list Tag) :
  NoDup (lodash_intersection xs ys) /\
  (forall t, t ∈ lodash_intersection xs ys <-> t ∈ xs /\ t ∈ ys).
Proof.
  unfold lodash_intersection. destruct (lodash_fold_spec xs ys [] (NoDup_nil_2)) as [H1 H2].
  split; [exact H1|]. intros t. rewrite H2, elem_of_nil. tauto.
Qed.

(** C4: Unless the query asks for status "broken", no result is a broken
    record; a query asking for "broken" returns exactly the broken records
    that pass the recency, tag and locale gates. *)
Theorem lookup_broken_only_on_request (days_since : jsstr -> option Z) (st : State) (q : Query) :
  wf st ->
  (statusOnly q <> Some broken ->
     forall k ent, fst (lookup days_since st q) !! k = Some ent ->
       exists v, db st !! k = Some v /\ status v <> Some broken) /\
  (statusOnly q = Some broken ->
     forall k, is_Some (fst (lookup days_since st q) !! k) <->
       exists v, db st !! k = Some v /\ status v = Some broken /\
         cold_gate days_since q v = true /\ tag_gate (sets st) q v = true /\
         locale_gate q k v = true).
Proof.
  intros Hwf. split.
  - intros Hs k ent Hent.
    destruct (proj1 (lookup_result_iff days_since st q k Hwf) (ex_intro _ ent Hent)) as [v [Hv Hp]].
    exists v. split; [exact Hv|].
    unfold passes in Hp. rewrite !andb_true_iff in Hp. destruct Hp as [[[[_ Hb] _] _] _].
    unfold broken_gate in Hb.
    assert (Hq : (match statusOnly q with None => true | Some s => negb (bool_decide (s = broken)) end) = true).
    { destruct (statusOnly q) as [s|]; [|reflexivity].
      apply negb_true_iff, bool_decide_eq_false_2. congruence. }
    rewrite Hq in Hb. cbn [andb] in Hb. apply negb_true_iff, bool_decide_eq_false_1 in Hb. exact Hb.
  - intros Hs k. rewrite (lookup_result_iff days_since st q k Hwf).
    unfold passes, status_only_gate, broken_gate. rewrite Hs.
    rewrite (bool_decide_eq_true_2 (broken = broken)) by reflexivity. cbn [negb andb].
    split.
    + intros [v [Hv Hp]]. rewrite !andb_true_iff in Hp. destruct Hp as [[[[Hst _] Hc] Ht] Hl].
      apply bool_decide_eq_true_1 in Hst. exists v. tauto.
    + intros [v [Hv [Hst [Hc [Ht Hl]]]]]. exists v. split; [exact Hv|].
      rewrite Hc, Ht, Hl, (bool_decide_eq_true_2 _ Hst). reflexivity.
Qed.

(** A directory with a dirty and a broken record. *)
Definition lookup_scenario : State :=
  mkState {[ js "a@x.com" := mkRec 1 None (Some dirty) None;
             js "b@y.ru" := mkRec 2 (Some (js "ru")) (Some broken) None ]}
          {[ 1%positive := [js "t1"]; 2%positive := [js "t1"; js "t2"] ]}.

Lemma lookup_broken_only_on_request_witness :
  wf_b lookup_scenario = true /\
  (statusOnly (mkQuery [] None (Some broken) None) = Some broken ->
     forall k, is_Some (fst (lookup no_days lookup_scenario (mkQuery [] None (Some broken) None)) !! k) <->
       exists v, db lookup_scenario !! k = Some v /\ status v = Some broken /\
         cold_gate no_days (mkQuery [] None (Some broken) None) v = true /\
         tag_gate (sets lookup_scenario) (mkQuery [] None (Some broken) None) v = true /\
         locale_gate (mkQuery [] None (Some broken) None) k v = true).
Proof.
  split; [vm_compute; reflexivity|].
  apply (lookup_broken_only_on_request no_days lookup_scenario (mkQuery [] None (Some broken) None)).
  apply wf_b_wf. vm_compute. reflexivity.
Defined.

(** C7: For a requested tag set without repetitions, the tag gate passes a
    record iff its set contains every requested tag; and the query with no
    tags, locale, status filter or recency threshold returns exactly the
    records whose status is not "broken". *)
Theorem lookup_tag_gate_superset (days_since : jsstr -> option Z) (h : gmap loc (list Tag))
    (q : Query) (rec : Rec) (st : State) :
  NoDup (q_tags q) -> wf st ->
  (tag_gate h q rec = true <-> forall t, t ∈ q_tags q -> t ∈ set_of h (tags rec)) /\
  (forall k, is_Some (fst (lookup days_since st (mkQuery [] None None None)) !! k) <->
     exists v, db st !! k = Some v /\ status v <> Some broken).
Proof.
  intros Hnd Hwf. split.
  - destruct (lodash_intersection_spec (set_of h (tags rec)) (q_tags q)) as [Hind Hiel].
    unfold tag_gate. rewrite negb_true_iff, Nat.ltb_ge. split.
    + intros Hlen t Ht.
      assert (Hsub : lodash_intersection (set_of h (tags rec)) (q_tags q) ⊆+ q_tags q).
      { apply NoDup_submseteq; [exact Hind|]. intros x Hx. apply Hiel in Hx. tauto. }
      pose proof (submseteq_length_Permutation _ _ Hsub Hlen) as Hperm.
      rewrite <- Hperm in Ht. apply Hiel in Ht. tauto.
    + intros Hall. apply submseteq_length. apply NoDup_submseteq; [exact Hnd|].
      intros x Hx. apply Hiel. split; [apply Hall; exact Hx|exact Hx].
  - intros k. rewrite (lookup_result_iff days_since st _ k Hwf). split.
    + intros [v [Hv Hp]]. exists v. split; [exact Hv|].
      unfold passes, broken_gate in Hp. cbn [statusOnly andb] in Hp.
      rewrite !andb_true_iff in Hp. destruct Hp as [[[[_ Hb] _] _] _].
      apply negb_true_iff, bool_decide_eq_false_1 in Hb. exact Hb.
    + intros [v [Hv Hb]]. exists v. split; [exact Hv|].
      unfold passes, status_only_gate, broken_gate, cold_gate, tag_gate, locale_gate.
      cbn [statusOnly coldDays q_tags q_locale].
      rewrite (bool_decide_eq_false_2 _ Hb).
      assert (Hl : length (lodash_intersection (set_of (sets st) (tags v)) []) = 0%nat).
      { destruct (lodash_intersection_spec (set_of (sets st) (tags v)) []) as [_ Hiel].
        destruct (lodash_intersection (set_of (sets st) (tags v)) []) as [|x l] eqn:E; [reflexivity|].
        exfalso. assert (Hx : x ∈ x :: l) by left. apply Hiel in Hx. destruct Hx as [_ Hx].
        apply elem_of_nil in Hx. exact Hx. }
      rewrite Hl. reflexivity.
Qed.

Lemma lookup_tag_gate_superset_witness :
  NoDup (q_tags (mkQuery [js "t1"] None None None)) /\ wf_b lookup_scenario = true /\
  tag_gate (sets lookup_scenario) (mkQuery [js "t1"] None None None) (mkRec 2 None None None) = true /\
  is_Some (fst (lookup no_days lookup_scenario (mkQuery [] None None None)) !! js "a@x.com").
Proof.
  assert (Hnd : NoDup (q_tags (mkQuery [js "t1"] None None None)))
    by (apply NoDup_singleton).
  assert (Hwf : wf lookup_scenario) by (apply wf_b_wf; vm_compute; reflexivity).
  split; [exact Hnd|split; [vm_compute; reflexivity|split]].
  - apply (proj2 (proj1 (lookup_tag_gate_superset no_days (sets lookup_scenario)
                           (mkQuery [js "t1"] None None None) (mkRec 2 None None None)
                           lookup_scenario Hnd Hwf))).
    intros t Ht. apply list_elem_of_singleton in Ht. subst t. vm_compute. left.
  - apply (proj2 (proj2 (lookup_tag_gate_superset no_days (sets lookup_scenario)
                           (mkQuery [js "t1"] None None None) (mkRec 2 None None None)
                           lookup_scenario Hnd Hwf) (js "a@x.com"))).
    exists (mkRec 1 None (Some dirty) None). split; [vm_compute; reflexivity|discriminate].
Defined.

(** C10: [lookup] leaves every stored record and every stored set as they were;
    each result entry belongs to a stored record, holds its resolved locale,
    and a set that is none of the stored sets but has the same elements as
    the record's set. *)
Theorem lookup_read_only (days_since : jsstr -> option Z) (st : State) (q : Query) :
  wf st ->
  db (snd (lookup days_since st q)) = db st /\
  (forall l, l ∈ dom (sets st) -> sets (snd (lookup days_since st q)) !! l = sets st !! l) /\
  (forall k ent, fst (lookup days_since st q) !! k = Some ent ->
     exists v, db st !! k = Some v /\ e_locale ent = calculated_locale k v /\
       (forall k' v', db st !! k' = Some v' -> e_tags ent <> tags v') /\
       (forall t, t ∈ set_of (sets (snd (lookup days_since st q))) (e_tags ent) <->
                  t ∈ set_of (sets (snd (lookup days_since st q))) (tags v))).
Proof.
  intros Hwf. pose proof (lookup_spec days_since st q Hwf) as H.
  destruct (lookup days_since st q) as [result st']. destruct H as [Hdb [Hh Hk]].
  cbn [fst snd]. split; [exact Hdb|split; [exact Hh|]].
  intros k ent Hent. specialize (Hk k). destruct (db st !! k) as [v|] eqn:Hv; [|congruence].
  destruct (passes days_since (sets st) q k v); [|congruence].
  destruct Hk as [ent' [Hent' [Hloc [Hfresh Hset]]]]. rewrite Hent in Hent'. injection Hent' as <-.
  exists v. split; [reflexivity|split; [exact Hloc|split]].
  - intros k' v' Hv' Heq. apply Hfresh. rewrite Heq. exact (Hwf _ _ Hv').
  - intros t. unfold set_of at 1 2. rewrite Hset, (Hh _ (Hwf _ _ Hv)).
    exact (new_Set_elem (set_of (sets st) (tags v)) t).
Qed.

Lemma lookup_read_only_witness :
  wf_b lookup_scenario = true /\
  db (snd (lookup no_days lookup_scenario (mkQuery [js "t1"] None None None))) = db lookup_scenario.
Proof.
  split; [vm_compute; reflexivity|].
  apply (proj1 (lookup_read_only no_days lookup_scenario (mkQuery [js "t1"] None None None)
                  (wf_b_wf lookup_scenario ltac:(vm_compute; reflexivity)))).
Defined.

Lemma insert_idempotent_witness :
  wf_b empty_state = true /\
  snd (insert (fst (insert empty_state scenario_src [js "t1"] None)) scenario_src [js "t1"] None)
    = (0, 0)%nat.
Proof.
  split; [vm_compute; reflexivity|].
  apply (proj1 (insert_idempotent empty_state scenario_src [js "t1"] None
                  (wf_b_wf empty_state ltac:(vm_compute; reflexivity)))).
Defined.

(** ** Load *)

(** The elements [new Set(rec.tags)] is built from, for the [tags] values
    that are absent, [null] or an array. *)
Definition tags_rehydrated (t : option jsv) : option (list jsv) :=
  match t with
  | None | Some VNull => Some []
  | Some (VArr elts _) => Some elts
  | Some _ => None
  end.

Lemma get_prop_cons (k k' : jsstr) (v' : jsv) (ps : list (jsstr * jsv)) :
  get_prop k ((k', v') :: ps) = if bool_decide (k' = k) then Some v' else get_prop k ps.
Proof. unfold get_prop. cbn [find fst snd]. destruct (bool_decide (k' = k)); reflexivity. Qed.

Lemma get_prop_set_prop_eq (k : jsstr) (v : jsv) (ps : list (jsstr * jsv)) :
  get_prop k (set_prop k v ps) = Some v.
Proof.
  induction ps as [|[k' v'] ps IH]; cbn [set_prop].
  - rewrite get_prop_cons, bool_decide_eq_true_2 by reflexivity. reflexivity.
  - case_bool_decide.
    + rewrite get_prop_cons, bool_decide_eq_true_2 by reflexivity. reflexivity.
    + rewrite get_prop_cons, bool_decide_eq_false_2 by assumption. exact IH.
Qed.

Lemma get_prop_set_prop_ne (k k0 : jsstr) (v : jsv) (ps : list (jsstr * jsv)) :
  k0 <> k -> get_prop k (set_prop k0 v ps) = get_prop k ps.
Proof.
  intros Hne. induction ps as [|[k' v'] ps IH]; cbn [set_prop].
  - rewrite get_prop_cons, bool_decide_eq_false_2 by exact Hne. reflexivity.
  - case_bool_decide as Hk.
    + subst k'. rewrite !get_prop_cons, !bool_decide_eq_false_2 by exact Hne. reflexivity.
    + rewrite !get_prop_cons. destruct (bool_decide (k' = k)); [reflexivity|exact IH].
Qed.

Lemma get_prop_delete_ne (k k0 : jsstr) (ps : list (jsstr * jsv)) :
  k0 <> k -> get_prop k (delete_prop k0 ps) = get_prop k ps.
Proof.
  intros Hne. unfold delete_prop. induction ps as [|[k' v'] ps IH]; cbn [List.filter fst]; [reflexivity|].
  case_bool_decide as Hk; cbn [negb].
  - subst k'. rewrite get_prop_cons, bool_decide_eq_false_2 by exact Hne. exact IH.
  - rewrite !get_prop_cons. destruct (bool_decide (k' = k)); [reflexivity|exact IH].
Qed.

Lemma fix_record_props_tags (rps : list (jsstr * jsv)) (elts : list jsv) :
  tags_rehydrated (get_prop (js "tags") rps) = Some elts ->
  exists rps', fix_record_props rps = Some rps' /\
    get_prop (js "tags") rps' = Some (VSet (fold_left set_add_v elts [])).
Proof.
  intros Ht.
  assert (Hn : new_Set_v (get_prop (js "tags") rps) = Some (VSet (fold_left set_add_v elts []))).
  { destruct (get_prop (js "tags") rps) as [[]|]; cbn in Ht; try discriminate;
      injection Ht as <-; reflexivity. }
  unfold fix_record_props. rewrite Hn. eexists. split; [reflexivity|].
  assert (Hst : js "status" <> js "tags") by (vm_compute; discriminate).
  rewrite (get_prop_delete_ne _ (js "dirty")) by (vm_compute; discriminate).
  rewrite (get_prop_delete_ne _ (js "clean")) by (vm_compute; discriminate).
  destruct (js_truthy _); [rewrite (get_prop_set_prop_ne _ _ _ _ Hst)|];
    [|destruct (js_truthy _); [rewrite (get_prop_set_prop_ne _ _ _ _ Hst)|]];
    apply get_prop_set_prop_eq.
Qed.

Lemma fix_fields_null (ps : list (jsstr * jsv)) (k : jsstr) : In (k, VNull) ps -> fix_fields ps = None.
Proof.
  induction ps as [|[k' v'] ps IH]; intros Hin; [destruct Hin|].
  cbn [fix_fields]. destruct Hin as [Heq|Hin].
  - injection Heq as -> ->. reflexivity.
  - rewrite (IH Hin). destruct (fix_record v'); reflexivity.
Qed.

(** C9: Counterexample: a persisted directory that parses to an object with a
    [null] record makes [load] throw. *)
Lemma load_throws_on_null_record :
  load (Parsed (VObj [(js "a@x.com", VNull)])) = None.
Proof. vm_compute. reflexivity. Qed.

(** C9 (amended): on a read or parse failure [load] leaves the empty
    directory; when the content parses to an object whose records are all
    objects with an array, [null] or absent [tags], [load] completes, keeps
    the keys in order and rehydrates every record's [tags] into a [Set] of
    the distinct elements; a [null] record makes it throw. *)
Theorem load_tolerates_read_errors :
  load ReadOrParseError = Some (VObj []) /\
  (forall ps, Forall (fun kv => exists rps elts, kv.2 = VObj rps /\
                       tags_rehydrated (get_prop (js "tags") rps) = Some elts) ps ->
     exists ps', load (Parsed (VObj ps)) = Some (VObj ps') /\ ps'.*1 = ps.*1 /\
       Forall2 (fun kv kv' => exists rps rps' elts, kv.2 = VObj rps /\ kv'.2 = VObj rps' /\
                  tags_rehydrated (get_prop (js "tags") rps) = Some elts /\
                  get_prop (js "tags") rps' = Some (VSet (fold_left set_add_v elts []))) ps ps') /\
  (forall ps k, In (k, VNull) ps -> load (Parsed (VObj ps)) = None).
Proof.
  split; [reflexivity|split].
  - intros ps Hall. unfold load. cbn [option_map].
    enough (H : exists ps', fix_fields ps = Some ps' /\ ps'.*1 = ps.*1 /\
       Forall2 (fun kv kv' => exists rps rps' elts, kv.2 = VObj rps /\ kv'.2 = VObj rps' /\
                  tags_rehydrated (get_prop (js "tags") rps) = Some elts /\
                  get_prop (js "tags") rps' = Some (VSet (fold_left set_add_v elts []))) ps ps').
    { destruct H as [ps' [-> H]]. exists ps'. split; [reflexivity|exact H]. }
    induction Hall as [|[k v] ps [rps [elts [Hv Ht]]] Hall IH].
    + exists []. split; [reflexivity|split; [reflexivity|constructor]].
    + destruct IH as [ps' [Hf [Hk H2]]]. cbn [snd] in Hv. subst v.
      destruct (fix_record_props_tags rps elts Ht) as [rps' [Hr Hg]].
      exists ((k, VObj rps') :: ps'). cbn [fix_fields fix_record]. rewrite Hr, Hf. cbn [option_map].
      split; [reflexivity|split].
      * rewrite !fmap_cons. cbn [fst]. rewrite Hk. reflexivity.
      * constructor; [|exact H2]. exists rps, rps', elts. cbn [snd]. tauto.
  - intros ps k Hin. unfold load. rewrite (fix_fields_null ps k Hin). reflexivity.
Qed.

Lemma load_tolerates_read_errors_witness :
  load (Parsed (VObj [(js "a@x.com", VObj [(js "tags", VArr [VStr (js "t"); VStr (js "t")] [])])]))
    = Some (VObj [(js "a@x.com", VObj [(js "tags", VSet [VStr (js "t")])])]) /\
  exists ps', load (Parsed (VObj [(js "a@x.com", VObj [(js "tags", VArr [VStr (js "t"); VStr (js "t")] [])])]))
                = Some (VObj ps') /\ ps'.*1 = [js "a@x.com"].
Proof.
  split; [vm_compute; reflexivity|].
  destruct (proj1 (proj2 load_tolerates_read_errors)
              [(js "a@x.com", VObj [(js "tags", VArr [VStr (js "t"); VStr (js "t")] [])])])
    as [ps' [Hl [Hk _]]].
  - repeat constructor. exists [(js "tags", VArr [VStr (js "t"); VStr (js "t")] [])],
      [VStr (js "t"); VStr (js "t")]. split; [reflexivity|vm_compute; reflexivity].
  - exists ps'. split; [exact Hl|exact Hk].
Defined.

(** [save] writes [JSON.stringify(this.db)], where a [Set] becomes [{}];
    loading such a file throws at [new Set(rec.tags)]. *)
Example load_after_save_set_tags :
  load (Parsed (VObj [(js "a@x.com", VObj [(js "tags", VObj []); (js "status", VStr (js "dirty"))])]))
  = None.
Proof. vm_compute. reflexivity. Qed.

(* ===================================================================== *)
(** * Further properties of the code *)

(** ** Matches are made of characters the pattern's classes accept *)

Module RegexChars.









End RegexChars.



Lemma filterEmail_nonempty (line e : jsstr) : filterEmail line = Some e -> e <> [].
Proof.
  intros Hf ->. pose proof (filterEmail_idem line [] Hf) as H. vm_compute in H. discriminate H.
Qed.

(** ** [readEmailFile] and [saveEmailFile] *)

Lemma omap_cons_eq {A B} (f : A -> option B) (x : A) (l : list A) :
  omap f (x :: l) = match f x with Some y => y :: omap f l | None => omap f l end.
Proof. reflexivity. Qed.

Lemma readEmailFile_fold (lines : list jsstr) (acc : list Email) :
  fold_left (fun result line =>
               match filterEmail line with
               | Some email => if truthy (Some email) then result ++ [email] else result
               | None => result
               end) lines acc = acc ++ omap filterEmail lines.
Proof.
  revert acc. induction lines as [|line lines IH]; intros acc; cbn [fold_left].
  - rewrite app_nil_r. reflexivity.
  - rewrite omap_cons_eq. destruct (filterEmail line) as [e|] eqn:Hf.
    + destruct e as [|c e']; [exfalso; exact (filterEmail_nonempty line [] Hf eq_refl)|].
      cbn [truthy]. rewrite IH, <- app_assoc. reflexivity.
    + apply IH.
Qed.




(** X1: [readEmailFile] gives, in file order, the normal form of every line of
    the file in which an address is found, each of them a fixed point of
    [filterEmail] and none of them empty; a file that cannot be read gives
    the empty list. *)
Theorem readEmailFile_normal_forms (content : option jsstr) :
  readEmailFile content =
    match content with None => [] | Some c => omap filterEmail (js_split [10] c) end /\
  Forall (fun e => filterEmail e = Some e /\ e <> []) (readEmailFile content).
Proof.
  assert (Heq : readEmailFile content =
                match content with None => [] | Some c => omap filterEmail (js_split [10] c) end).
  { destruct content as [c|]; [|reflexivity]. unfold readEmailFile. rewrite readEmailFile_fold. reflexivity. }
  split; [exact Heq|]. rewrite Heq. destruct content as [c|]; [|constructor].
  apply Forall_forall. intros e Hin. apply list_elem_of_omap in Hin as [line [_ Hf]].
  split; [exact (filterEmail_idem line e Hf)|exact (filterEmail_nonempty line e Hf)].
Qed.



(** ** What [insert] does to the records *)

Definition rec_fields (r : Rec) : option Status * option jsstr * option Locale :=
  (status r, lastDelivered r, locale r).

(** The fields a visited address ends with, from the record it had. *)
Definition visited_fields (locale_in : option Locale) (o : option Rec)
    : option Status * option jsstr * option Locale :=
  match o with
  | Some r => (status r, lastDelivered r, if truthy locale_in then locale_in else locale r)
  | None => (Some dirty, None, if truthy locale_in then locale_in else None)
  end.

Lemma visited_fields_again (locale_in : option Locale) (o : option Rec) (r' : Rec) :
  rec_fields r' = visited_fields locale_in o ->
  visited_fields locale_in (Some r') = visited_fields locale_in o.
Proof.
  unfold rec_fields, visited_fields. intros H.
  destruct o as [r|]; injection H as H1 H2 H3; rewrite H1, H2, H3;
    destruct (truthy locale_in); reflexivity.
Qed.

Lemma insert_into_db (tags_in : list Tag) (locale_in : option Locale)
    (st : State) (e : Email) (res : Rec) (n m : nat) :
  exists l', db (fst (insert_into tags_in locale_in st e res n m)) =
    <[e := mkRec l' (if truthy locale_in then locale_in else locale res) (status res) (lastDelivered res)]> (db st)
  /\ fst (snd (insert_into tags_in locale_in st e res n m)) = n.
Proof.
  unfold insert_into. destruct (fold_left add_tag tags_in (set_of (sets st) (tags res), false)) as [c added].
  unfold alloc. cbn [fst snd db]. eexists. split; reflexivity.
Qed.

Lemma insert_line_db (tags_in : list Tag) (locale_in : option Locale)
    (st : State) (n m : nat) (line : jsstr) (e : Email) :
  filterEmail line = Some e ->
  let a := insert_line tags_in locale_in (st, (n, m)) line in
  (forall k, k <> e -> db (fst a) !! k = db st !! k) /\
  (exists r', db (fst a) !! e = Some r' /\ rec_fields r' = visited_fields locale_in (db st !! e)) /\
  fst (snd a) = match db st !! e with Some _ => n | None => S n end /\
  size (db (fst a)) = match db st !! e with Some _ => size (db st) | None => S (size (db st)) end.
Proof.
  intros Hf a. unfold a. clear a. destruct (db st !! e) as [r|] eqn:He.
  - rewrite (insert_line_old tags_in locale_in st n m line e r Hf He).
    destruct (insert_into_db tags_in locale_in st e r n m) as [l' [Hd Hn]].
    rewrite Hd, Hn. split; [|split; [|split; [reflexivity|]]].
    + intros k Hk. apply lookup_insert_ne. congruence.
    + eexists. rewrite lookup_insert_eq. split; reflexivity.
    + apply map_size_insert_Some. rewrite He. eexists; reflexivity.
  - rewrite (insert_line_new tags_in locale_in st n m line e Hf He).
    destruct (insert_into_db tags_in locale_in (new_rec_state st e) e
                (mkRec (fresh (dom (sets st))) None (Some dirty) None) (S n) m) as [l' [Hd Hn]].
    rewrite Hd, Hn. unfold new_rec_state. cbn [db locale status lastDelivered].
    rewrite insert_insert_eq. split; [|split; [|split; [reflexivity|]]].
    + intros k Hk. apply lookup_insert_ne. congruence.
    + eexists. rewrite lookup_insert_eq. split; reflexivity.
    + apply map_size_insert_None. exact He.
Qed.

Lemma insert_fold_size (tags_in : list Tag) (locale_in : option Locale) (lines : list jsstr) :
  forall acc,
  let a := fold_left (insert_line tags_in locale_in) lines acc in
  (size (db (fst a)) + fst (snd acc) = size (db (fst acc)) + fst (snd a))%nat.
Proof.
  induction lines as [|line lines IH]; intros [st [n m]]; cbn [fold_left fst snd]; [lia|].
  destruct (filterEmail line) as [e|] eqn:Hf.
  - destruct (insert_line_db tags_in locale_in st n m line e Hf) as [_ [_ [Hn Hs]]].
    destruct (insert_line tags_in locale_in (st, (n, m)) line) as [st1 [n1 m1]] eqn:E.
    cbn [fst snd] in Hn, Hs. pose proof (IH (st1, (n1, m1))) as H. cbn [fst snd] in H.
    destruct (db st !! e); lia.
  - rewrite (insert_line_skip tags_in locale_in _ line Hf). apply IH.
Qed.

Lemma insert_fold_fields (tags_in : list Tag) (locale_in : option Locale) (lines : list jsstr) :
  forall acc,
  let st' := fst (fold_left (insert_line tags_in locale_in) lines acc) in
  (forall k, (forall line, In line lines -> filterEmail line <> Some k) ->
     db st' !! k = db (fst acc) !! k) /\
  (forall line k, In line lines -> filterEmail line = Some k ->
     exists r', db st' !! k = Some r' /\ rec_fields r' = visited_fields locale_in (db (fst acc) !! k)).
Proof.
  induction lines as [|line lines IH]; intros [st [n m]]; cbn [fold_left fst].
  - split; [reflexivity|intros ? ? []].
  - destruct (filterEmail line) as [e|] eqn:Hf.
    + destruct (insert_line_db tags_in locale_in st n m line e Hf) as [Hoth [[r1 [He1 Hr1]] _]].
      destruct (insert_line tags_in locale_in (st, (n, m)) line) as [st1 c1] eqn:E.
      cbn [fst] in Hoth, He1.
      destruct (IH (st1, c1)) as [Hun Hvis]. cbn [fst] in Hun, Hvis.
      split.
      * intros k Hk. rewrite Hun by (intros l Hl; apply Hk; right; exact Hl).
        apply Hoth. intros ->. apply (Hk line); [left; reflexivity|exact Hf].
      * intros line0 k Hin Hf0.
        assert (Hcase : forall r', db (fst (fold_left (insert_line tags_in locale_in) lines (st1, c1))) !! k = Some r' ->
                          rec_fields r' = visited_fields locale_in (db st1 !! k) ->
                          rec_fields r' = visited_fields locale_in (db st !! k)).
        { intros r' _ Hr'. rewrite Hr'. destruct (decide (k = e)) as [->|Hne].
          - rewrite He1. apply visited_fields_again. exact Hr1.
          - rewrite (Hoth k Hne). reflexivity. }
        destruct (decide (Exists (fun l => filterEmail l = Some k) lines)) as [Hex|Hnex].
        -- apply Exists_exists in Hex as [l [Hl Hfl]].
           apply list_elem_of_In in Hl.
           destruct (Hvis l k Hl Hfl) as [r' [H1 H2]]. exists r'. split; [exact H1|]. exact (Hcase r' H1 H2).
        -- assert (Hno : forall l, In l lines -> filterEmail l <> Some k)
             by (intros l Hl Hfl; apply Hnex, Exists_exists; exists l; split; [apply list_elem_of_In|]; assumption).
           destruct Hin as [<-|Hin]; [|exfalso; exact (Hno line0 Hin Hf0)].
           rewrite Hf in Hf0. injection Hf0 as <-.
           exists r1. rewrite (Hun e Hno). split; [exact He1|exact Hr1].
    + rewrite (insert_line_skip tags_in locale_in _ line Hf).
      destruct (IH (st, (n, m))) as [Hun Hvis]. cbn [fst] in Hun, Hvis. split.
      * intros k Hk. apply Hun. intros l Hl. apply Hk. right. exact Hl.
      * intros line0 k [<-|Hin] Hf0; [congruence|exact (Hvis line0 k Hin Hf0)].
Qed.

(** X3: After [insert], [totalEmails] has grown by exactly the reported
    [inserted] count. *)
Theorem insert_totalEmails (st : State) (content : jsstr) (tags_in : list Tag) (locale_in : option Locale) :
  totalEmails (fst (insert st content tags_in locale_in)) =
    (totalEmails st + fst (snd (insert st content tags_in locale_in)))%nat.
Proof.
  unfold totalEmails, insert.
  pose proof (insert_fold_size tags_in locale_in (js_split [10] content) (st, (0, 0)%nat)) as H.
  cbn [fst snd] in H. lia.
Qed.

(** X4: [insert] leaves the record of every address found on no line as it
    was (absent stays absent). An address found on some line ends with a
    record: one that existed keeps its [status] and [lastDelivered]; a new
    one has status [dirty] and no [lastDelivered]; its locale is the given
    one when that is non-empty, else the old one (none for a new address). *)
Theorem insert_record_fields (st : State) (content : jsstr) (tags_in : list Tag) (locale_in : option Locale) :
  let st' := fst (insert st content tags_in locale_in) in
  (forall k, (forall line, In line (js_split [10] content) -> filterEmail line <> Some k) ->
     db st' !! k = db st !! k) /\
  (forall line k, In line (js_split [10] content) -> filterEmail line = Some k ->
     exists r', db st' !! k = Some r' /\
       status r' = match db st !! k with Some r => status r | None => Some dirty end /\
       lastDelivered r' = match db st !! k with Some r => lastDelivered r | None => None end /\
       locale r' = if truthy locale_in then locale_in
                   else match db st !! k with Some r => locale r | None => None end).
Proof.
  intros st'. destruct (insert_fold_fields tags_in locale_in (js_split [10] content) (st, (0, 0)%nat))
    as [Hun Hvis]. split; [exact Hun|].
  intros line k Hin Hf. destruct (Hvis line k Hin Hf) as [r' [H1 H2]]. exists r'. split; [exact H1|].
  unfold rec_fields, visited_fields in H2. cbn [fst] in H2.
  destruct (db st !! k) as [r|]; injection H2 as -> -> ->; repeat split.
Qed.

(** ** How [insert] changes the tag sets *)

Lemma insert_into_own (tags_in : list Tag) (locale_in : option Locale)
    (st : State) (e : Email) (res : Rec) (n m : nat) :
  exists r', db (fst (insert_into tags_in locale_in st e res n m)) !! e = Some r' /\
    forall t, t ∈ set_of (sets st) (tags res) \/ t ∈ tags_in ->
      t ∈ set_of (sets (fst (insert_into tags_in locale_in st e res n m))) (tags r').
Proof.
  unfold insert_into.
  destruct (fold_left add_tag tags_in (set_of (sets st) (tags res), false)) as [c added] eqn:Ec.
  assert (Hc : forall t, t ∈ set_of (sets st) (tags res) -> t ∈ c)
    by (intros t Ht; change c with (c, added).1; rewrite <- Ec; apply add_loop_elem; left; exact Ht).
  unfold alloc. cbn [fst db sets]. eexists. rewrite lookup_insert_eq. split; [reflexivity|].
  cbn [tags]. intros t Ht. rewrite set_of_insert_eq, new_Set_elem, elem_of_app.
  destruct Ht as [Ht|Ht]; [left; apply Hc; exact Ht|right; exact Ht].
Qed.

(** Every record of [st] is still in [st'], with at least its tags. *)
Definition keeps_tags (st st' : State) : Prop :=
  forall k r, db st !! k = Some r -> exists r', db st' !! k = Some r' /\
    forall t, t ∈ set_of (sets st) (tags r) -> t ∈ set_of (sets st') (tags r').

Lemma keeps_tags_trans (st1 st2 st3 : State) :
  keeps_tags st1 st2 -> keeps_tags st2 st3 -> keeps_tags st1 st3.
Proof.
  intros H12 H23 k r Hk. destruct (H12 k r Hk) as [r2 [H2 Ht2]].
  destruct (H23 k r2 H2) as [r3 [H3 Ht3]]. exists r3. split; [exact H3|].
  intros t Ht. apply Ht3, Ht2, Ht.
Qed.

Lemma insert_line_keeps (tags_in : list Tag) (locale_in : option Locale)
    (st : State) (n m : nat) (line : jsstr) :
  wf st ->
  wf (fst (insert_line tags_in locale_in (st, (n, m)) line)) /\
  keeps_tags st (fst (insert_line tags_in locale_in (st, (n, m)) line)).
Proof.
  intros Hwf. destruct (filterEmail line) as [e|] eqn:Hf.
  2:{ rewrite (insert_line_skip tags_in locale_in _ line Hf). split; [exact Hwf|].
      intros k r Hk. exists r. split; [exact Hk|tauto]. }
  pose proof (insert_line_grows tags_in locale_in st n m line e Hwf Hf) as [Hwf' [Hoth [Hg _]]].
  split; [exact Hwf'|]. intros k r Hk.
  destruct (decide (k = e)) as [->|Hne].
  - rewrite (insert_line_old tags_in locale_in st n m line e r Hf Hk).
    destruct (insert_into_own tags_in locale_in st e r n m) as [r' [H1 H2]].
    exists r'. split; [exact H1|]. intros t Ht. apply H2. left. exact Ht.
  - exists r. rewrite (Hoth k Hne). split; [exact Hk|]. intros t Ht.
    apply Hg; [exact (Hwf _ _ Hk)|exact Ht].
Qed.

Lemma insert_fold_keeps (tags_in : list Tag) (locale_in : option Locale) (lines : list jsstr) :
  forall acc, wf (fst acc) ->
  keeps_tags (fst acc) (fst (fold_left (insert_line tags_in locale_in) lines acc)).
Proof.
  induction lines as [|line lines IH]; intros [st [n m]] Hwf; cbn [fold_left fst] in *.
  - intros k r Hk. exists r. split; [exact Hk|tauto].
  - destruct (insert_line_keeps tags_in locale_in st n m line Hwf) as [Hwf' Hk].
    destruct (insert_line tags_in locale_in (st, (n, m)) line) as [st1 c1] eqn:E.
    cbn [fst] in Hwf', Hk. eapply keeps_tags_trans; [exact Hk|]. exact (IH (st1, c1) Hwf').
Qed.

(** X5: On a well-formed directory, [insert] loses no address and no tag:
    every record keeps at least the tags its set had; and [tags(email)]
    of every address found on a line contains every supplied tag. *)
Theorem insert_tags_grow (st : State) (content : jsstr) (tags_in : list Tag) (locale_in : option Locale) :
  wf st ->
  let st' := fst (insert st content tags_in locale_in) in
  (forall k r, db st !! k = Some r -> exists r', db st' !! k = Some r' /\
     forall t, t ∈ set_of (sets st) (tags r) -> t ∈ set_of (sets st') (tags r')) /\
  (forall line k, In line (js_split [10] content) -> filterEmail line = Some k ->
     forall t, t ∈ tags_in -> t ∈ db_tags st' k).
Proof.
  intros Hwf st'. split.
  - exact (insert_fold_keeps tags_in locale_in (js_split [10] content) (st, (0, 0)%nat) Hwf).
  - intros line k Hin Hf t Ht.
    destruct (insert_first_run tags_in locale_in (js_split [10] content) (st, (0, 0)%nat) Hwf)
      as [_ [Hgood _]].
    destruct (Hgood line k Hin Hf) as [r [Hr [Htags _]]].
    unfold db_tags. fold (insert st content tags_in locale_in) in Hr, Htags. fold st' in Hr, Htags.
    rewrite Hr. apply Htags. exact Ht.
Qed.

Lemma insert_tags_grow_witness :
  wf empty_state /\
  js "t1" ∈ db_tags (fst (insert empty_state scenario_src [js "t1"] None)) (js "b@y.ru").
Proof.
  assert (Hwf : wf empty_state) by (intros e r H; discriminate).
  split; [exact Hwf|].
  apply (proj2 (insert_tags_grow empty_state scenario_src [js "t1"] None Hwf) (js "b@y.ru")).
  - vm_compute. right. right. left. reflexivity.
  - vm_compute. reflexivity.
  - left.
Defined.

(** ** The counters of [allTags] *)

(** What one [count_tag] on [tag] does to [result[tag]]. *)
Definition tag_next (t : Tag) (o : option PropVal) : option PropVal :=
  if bool_decide (t = proto_key) then o else
  match o with
  | Some (PNum (S n)) => Some (PNum (S (S n)))
  | Some _ => Some (PNum 1)
  | None => if bool_decide (t ∈ object_proto_keys) then Some PNaN else Some (PNum 1)
  end.

Lemma count_tag_at (res : gmap Tag PropVal) (x t : Tag) :
  count_tag res x !! t = if bool_decide (x = t) then tag_next t (res !! t) else res !! t.
Proof.
  unfold count_tag, write_prop. destruct (decide (x = t)) as [<-|Hxt].
  - rewrite (bool_decide_eq_true_2 (x = x)) by reflexivity. rename x into t. unfold tag_next. destruct (decide (t = proto_key)) as [Hp|Hp].
    + subst t. rewrite !bool_decide_eq_true_2 by reflexivity.
      destruct (negb _); reflexivity.
    + rewrite !(bool_decide_eq_false_2 (t = proto_key) Hp). unfold read_prop.
      destruct (res !! t) as [[[|n]|]|] eqn:Ht.
      * cbn [read_truthy negb Nat.eqb]. rewrite lookup_insert_eq, lookup_insert_eq. reflexivity.
      * cbn [read_truthy negb Nat.eqb]. rewrite Ht, lookup_insert_eq. reflexivity.
      * cbn [read_truthy negb]. rewrite lookup_insert_eq, lookup_insert_eq. reflexivity.
      * repeat (first [ progress cbn [orb read_truthy negb incr] | rewrite Ht | rewrite lookup_insert_eq
                      | case_bool_decide; try contradiction ]); reflexivity.
  - rewrite (bool_decide_eq_false_2 (x = t)) by exact Hxt.
    destruct (bool_decide (x = proto_key)); [|rewrite lookup_insert_ne by exact Hxt];
      destruct (negb (read_truthy (read_prop res x))); rewrite ?lookup_insert_ne by exact Hxt; reflexivity.
Qed.

Definition occ (t : Tag) (l : list Tag) : nat := length (List.filter (fun x => bool_decide (x = t)) l).

Lemma count_tags_at (t : Tag) (l : list Tag) : forall res,
  fold_left count_tag l res !! t = Nat.iter (occ t l) (tag_next t) (res !! t).
Proof.
  unfold occ. induction l as [|x l IH]; intros res; [reflexivity|].
  cbn [fold_left List.filter]. rewrite IH, count_tag_at.
  case_bool_decide; [|reflexivity]. cbn [length]. rewrite Nat.iter_succ_r. reflexivity.
Qed.

Lemma occ_app (t : Tag) (l1 l2 : list Tag) : occ t (l1 ++ l2) = (occ t l1 + occ t l2)%nat.
Proof. unfold occ. rewrite List.filter_app, length_app. reflexivity. Qed.

Lemma occ_nodup (t : Tag) (l : list Tag) : NoDup l -> occ t l = if bool_decide (t ∈ l) then 1%nat else 0%nat.
Proof.
  unfold occ. induction l as [|x l IH]; intros Hnd; [reflexivity|].
  apply NoDup_cons in Hnd as [Hx Hnd]. cbn [List.filter].
  destruct (decide (x = t)) as [->|Hne].
  - rewrite (bool_decide_eq_true_2 (t = t)) by reflexivity. cbn [length]. rewrite (IH Hnd).
    rewrite (bool_decide_eq_false_2 (t ∈ l)) by exact Hx.
    rewrite (bool_decide_eq_true_2 (t ∈ t :: l)) by left. reflexivity.
  - rewrite (bool_decide_eq_false_2 (x = t)) by exact Hne. rewrite (IH Hnd).
    rewrite (bool_decide_ext (t ∈ x :: l) (t ∈ l)); [reflexivity|]. rewrite elem_of_cons.
    split; [intros [->|?]; [congruence|assumption]|tauto].
Qed.

(** The number of addresses whose tag set contains [t]. *)
Definition emails_with_tag (st : State) (t : Tag) : nat :=
  length (List.filter (fun '(e, r) => bool_decide (t ∈ set_of (sets st) (tags r))) (map_to_list (db st))).

(** The number of times [t] is counted, one per address whose set holds it. *)
Lemma allTags_iter (st : State) (t : Tag) :
  (forall e r, db st !! e = Some r -> NoDup (set_of (sets st) (tags r))) ->
  allTags st !! t = Nat.iter (emails_with_tag st t) (tag_next t) None.
Proof.
  intros Hnd. unfold allTags, emails_with_tag.
  assert (Hl : forall e r, (e, r) ∈ map_to_list (db st) -> NoDup (set_of (sets st) (tags r)))
    by (intros e r H; apply elem_of_map_to_list in H; exact (Hnd e r H)).
  change (@None PropVal) with ((∅ : gmap Tag PropVal) !! t).
  generalize (∅ : gmap Tag PropVal). induction (map_to_list (db st)) as [|[e r] l IH]; intros res; [reflexivity|].
  cbn [fold_left List.filter]. rewrite IH by (intros e' r' H; apply (Hl e' r'); right; exact H).
  rewrite count_tags_at, (occ_nodup t _ (Hl e r ltac:(left))).
  case_bool_decide; cbn [length]; [|reflexivity]. symmetry. rewrite Nat.iter_succ_r. reflexivity.
Qed.

Lemma tag_next_plain_iter (t : Tag) (n : nat) :
  t <> proto_key -> t ∉ object_proto_keys ->
  Nat.iter n (tag_next t) None = match n with O => None | S _ => Some (PNum n) end.
Proof.
  intros Hp Ho. induction n as [|n IH]; [reflexivity|].
  rewrite Nat.iter_succ, IH. unfold tag_next.
  rewrite (bool_decide_eq_false_2 (t = proto_key)) by exact Hp.
  destruct n; [rewrite (bool_decide_eq_false_2 (t ∈ object_proto_keys)) by exact Ho|]; reflexivity.
Qed.

Lemma tag_next_proto_iter (t : Tag) (n : nat) :
  t ∈ object_proto_keys ->
  Nat.iter n (tag_next t) None = match n with O => None | 1%nat => Some PNaN | S m => Some (PNum m) end.
Proof.
  intros Ho.
  assert (Hp : t <> proto_key) by (intros ->; vm_compute in Ho; repeat (inversion Ho as [|? ? ? Ho']; subst; clear Ho; rename Ho' into Ho)).
  induction n as [|n IH]; [reflexivity|].
  rewrite Nat.iter_succ, IH. unfold tag_next.
  rewrite (bool_decide_eq_false_2 (t = proto_key)) by exact Hp.
  destruct n as [|[|n]]; [rewrite (bool_decide_eq_true_2 (t ∈ object_proto_keys)) by exact Ho| |]; reflexivity.
Qed.

Definition sets_nodup_b (st : State) : bool :=
  forallb (fun '(e, r) => bool_decide (NoDup (set_of (sets st) (tags r)))) (map_to_list (db st)).

Lemma sets_nodup_b_ok (st : State) :
  sets_nodup_b st = true -> forall e r, db st !! e = Some r -> NoDup (set_of (sets st) (tags r)).
Proof.
  unfold sets_nodup_b. intros H e r Hr. rewrite forallb_forall in H.
  apply elem_of_map_to_list, list_elem_of_In in Hr. specialize (H _ Hr). cbn in H.
  apply bool_decide_eq_true_1 in H. exact H.
Qed.

(** X6: When every tag set is free of repetitions, [allTags()] maps an
    ordinary tag (not [__proto__] nor a property inherited from
    [Object.prototype]) to the number of addresses whose set holds it, and
    has no entry for a tag no address holds. *)
Theorem allTags_counts (st : State) (t : Tag) :
  (forall e r, db st !! e = Some r -> NoDup (set_of (sets st) (tags r))) ->
  t <> proto_key -> t ∉ object_proto_keys ->
  allTags st !! t =
    if Nat.eqb (emails_with_tag st t) 0 then None else Some (PNum (emails_with_tag st t)).
Proof.
  intros Hnd Hp Ho. rewrite (allTags_iter st t Hnd), (tag_next_plain_iter t _ Hp Ho).
  destruct (emails_with_tag st t); reflexivity.
Qed.

Lemma allTags_counts_witness :
  let st := fst (insert empty_state scenario_src [js "t1"] None) in
  allTags st !! js "t1" = Some (PNum 2).
Proof.
  intros st.
  assert (Hnd := sets_nodup_b_ok st ltac:(vm_compute; reflexivity)).
  rewrite (allTags_counts st (js "t1") Hnd).
  - vm_compute. reflexivity.
  - vm_compute. discriminate.
  - vm_compute. intros H. repeat (inversion H as [|? ? ? H']; subst; clear H; rename H' into H).
Defined.

Lemma tag_next_proto_key_iter (n : nat) : Nat.iter n (tag_next proto_key) None = None.
Proof.
  induction n as [|n IH]; [reflexivity|]. rewrite Nat.iter_succ, IH. unfold tag_next.
  rewrite bool_decide_eq_true_2 by reflexivity. reflexivity.
Qed.

(** X7: For a tag that names a property every object inherits from
    [Object.prototype] (such as [constructor] or [toString]), [allTags()]
    undercounts: the first address holding it stores [NaN], and with
    [n >= 2] such addresses the count is [n - 1]. The tag [__proto__] never
    gets an entry. (Tag sets free of repetitions.) *)
Theorem allTags_inherited_names (st : State) (t : Tag) :
  (forall e r, db st !! e = Some r -> NoDup (set_of (sets st) (tags r))) ->
  t ∈ object_proto_keys ->
  allTags st !! t =
    match emails_with_tag st t with O => None | 1%nat => Some PNaN | S m => Some (PNum m) end /\
  allTags st !! proto_key = None.
Proof.
  intros Hnd Ho. split.
  - rewrite (allTags_iter st t Hnd). apply tag_next_proto_iter. exact Ho.
  - rewrite (allTags_iter st proto_key Hnd). apply tag_next_proto_key_iter.
Qed.

Lemma allTags_inherited_names_witness :
  let st := fst (insert empty_state scenario_src [js "constructor"] None) in
  allTags st !! js "constructor" = Some (PNum 1).
Proof.
  intros st.
  assert (Hnd := sets_nodup_b_ok st ltac:(vm_compute; reflexivity)).
  destruct (allTags_inherited_names st (js "constructor") Hnd) as [H _].
  - vm_compute. left.
  - rewrite H. vm_compute. reflexivity.
Defined.

(** ** What [cleanup] does *)

(** The branches [cleanup] takes on a key: nothing found, and a key that
    is not its own normal form. *)
Definition bad_key (k : Email) : bool :=
  match filterEmail k with None => true | Some _ => false end.
Definition fixable_key (k : Email) : bool :=
  match filterEmail k with Some f => negb (bool_decide (f = k)) | None => false end.

Lemma filterEmail_normal_ne (k f x : Email) :
  filterEmail k = Some f -> f <> k -> filterEmail x = Some x -> x <> k.
Proof. intros Hf Hne Hx ->. rewrite Hx in Hf. injection Hf as ->. apply Hne. reflexivity. Qed.

Lemma cleanup_fold_spec (d0 : gmap Email Rec) (R : list Email) : forall d del fx,
  NoDup R -> (forall k, k ∈ R -> is_Some (d0 !! k)) ->
  (forall x r, d !! x = Some r -> exists k, d0 !! k = Some r /\ (x = k \/ filterEmail k = Some x)) ->
  (forall x, is_Some (d !! x) -> x ∈ R \/ filterEmail x = Some x) ->
  (forall k, k ∈ R -> is_Some (d !! k)) ->
  (forall k x, is_Some (d0 !! k) -> k ∉ R -> filterEmail k = Some x -> is_Some (d !! x)) ->
  let a := fold_left cleanup_step R (d, (del, fx)) in
  snd a = ((del + length (List.filter bad_key R))%nat, (fx + length (List.filter fixable_key R))%nat) /\
  (forall x r, fst a !! x = Some r -> exists k, d0 !! k = Some r /\ filterEmail k = Some x) /\
  (forall k x, is_Some (d0 !! k) -> filterEmail k = Some x -> is_Some (fst a !! x)).
Proof.
  induction R as [|email R IH]; intros d del fx Hnd Hkeys Ha Hb Hc Hd a; unfold a; clear a.
  - cbn [fold_left fst snd List.filter length]. split; [f_equal; lia|split].
    + intros x r Hx. destruct (Ha x r Hx) as [k [Hk [->|Hfk]]]; [|exists k; split; assumption].
      destruct (Hb k ltac:(eexists; exact Hx)) as [Hin|Hn]; [apply elem_of_nil in Hin; contradiction|].
      exists k. split; assumption.
    + intros k x Hk Hf. exact (Hd k x Hk (not_elem_of_nil k) Hf).
  - apply NoDup_cons in Hnd as [Hnin Hnd].
    destruct (Hc email ltac:(left)) as [rec Hrec].
    assert (HR : forall k, k ∈ R -> k <> email) by (intros k Hk ->; contradiction).
    assert (Hkeys' : forall k, k ∈ R -> is_Some (d0 !! k)) by (intros k Hk; apply Hkeys; right; exact Hk).
    assert (Hnotin : forall k, k ∉ R -> k <> email -> k ∉ email :: R)
      by (intros k Hk Hne Hin; apply elem_of_cons in Hin as [?|?]; contradiction).
    cbn [fold_left List.filter]. destruct (filterEmail email) as [f|] eqn:Hf.
    + destruct (decide (f = email)) as [->|Hne].
      * assert (Hs : cleanup_step (d, (del, fx)) email = (d, (del, fx)))
          by (unfold cleanup_step; rewrite Hrec, Hf, bool_decide_eq_true_2 by reflexivity; reflexivity).
        assert (Hbk : bad_key email = false) by (unfold bad_key; rewrite Hf; reflexivity).
        assert (Hfk : fixable_key email = false)
          by (unfold fixable_key; rewrite Hf, bool_decide_eq_true_2 by reflexivity; reflexivity).
        rewrite Hs, Hbk, Hfk. apply IH; [exact Hnd|exact Hkeys'|exact Ha| | |].
        -- intros x Hx. destruct (decide (x = email)) as [->|Hxe]; [right; exact Hf|].
           destruct (Hb x Hx) as [Hin|Hn]; [|right; exact Hn].
           apply elem_of_cons in Hin as [?|?]; [contradiction|left; assumption].
        -- intros k Hk. apply Hc. right. exact Hk.
        -- intros k x Hk HkR Hfk0. destruct (decide (k = email)) as [->|Hke].
           ++ rewrite Hf in Hfk0. injection Hfk0 as <-. eexists; exact Hrec.
           ++ exact (Hd k x Hk (Hnotin k HkR Hke) Hfk0).
      * assert (Hs : cleanup_step (d, (del, fx)) email = (delete email (<[f := rec]> d), (del, S fx)))
          by (unfold cleanup_step; rewrite Hrec, Hf, bool_decide_eq_false_2 by exact Hne; reflexivity).
        assert (Hbk : bad_key email = false) by (unfold bad_key; rewrite Hf; reflexivity).
        assert (Hfk : fixable_key email = true)
          by (unfold fixable_key; rewrite Hf, bool_decide_eq_false_2 by exact Hne; reflexivity).
        assert (Hfn : filterEmail f = Some f) by exact (filterEmail_idem email f Hf).
        rewrite Hs, Hbk, Hfk.
        destruct (IH (delete email (<[f := rec]> d)) del (S fx)) as [H1 [H2 H3]];
          [exact Hnd|exact Hkeys'| | | | |].
        -- intros x r Hx. destruct (decide (x = email)) as [->|Hxe]; [rewrite lookup_delete_eq in Hx; discriminate|].
           rewrite lookup_delete_ne in Hx by congruence.
           destruct (decide (x = f)) as [->|Hxf].
           ++ rewrite lookup_insert_eq in Hx. injection Hx as <-.
              destruct (Ha email rec Hrec) as [k0 [Hk0 [<-|Hfk0]]].
              ** exists email. split; [exact Hk0|right; exact Hf].
              ** exfalso. apply Hne. pose proof (filterEmail_idem k0 email Hfk0) as Hee.
                 rewrite Hee in Hf. injection Hf as ->. reflexivity.
           ++ rewrite lookup_insert_ne in Hx by congruence. exact (Ha x r Hx).
        -- intros x Hx. destruct (decide (x = email)) as [->|Hxe]; [rewrite lookup_delete_eq in Hx; destruct Hx; discriminate|].
           rewrite lookup_delete_ne in Hx by congruence.
           destruct (decide (x = f)) as [->|Hxf]; [right; exact Hfn|].
           rewrite lookup_insert_ne in Hx by congruence.
           destruct (Hb x Hx) as [Hin|Hn]; [|right; exact Hn].
           apply elem_of_cons in Hin as [?|?]; [contradiction|left; assumption].
        -- intros k Hk. rewrite lookup_delete_ne by (apply not_eq_sym, HR, Hk).
           destruct (decide (k = f)) as [->|Hkf]; [rewrite lookup_insert_eq; eexists; reflexivity|].
           rewrite lookup_insert_ne by congruence. apply Hc. right. exact Hk.
        -- intros k x Hk HkR Hfk0. destruct (decide (k = email)) as [->|Hke].
           ++ rewrite Hf in Hfk0. injection Hfk0 as <-.
              rewrite lookup_delete_ne by congruence. rewrite lookup_insert_eq. eexists; reflexivity.
           ++ pose proof (filterEmail_idem k x Hfk0) as Hxn.
              rewrite lookup_delete_ne by (apply not_eq_sym, (filterEmail_normal_ne email f x Hf Hne Hxn)).
              destruct (decide (x = f)) as [->|Hxf]; [rewrite lookup_insert_eq; eexists; reflexivity|].
              rewrite lookup_insert_ne by congruence. exact (Hd k x Hk (Hnotin k HkR Hke) Hfk0).
        -- split; [|split; assumption]. rewrite H1. cbn [length]. f_equal; lia.
    + assert (Hs : cleanup_step (d, (del, fx)) email = (delete email d, (S del, fx)))
        by (unfold cleanup_step; rewrite Hrec, Hf; reflexivity).
      assert (Hbk : bad_key email = true) by (unfold bad_key; rewrite Hf; reflexivity).
      assert (Hfk : fixable_key email = false) by (unfold fixable_key; rewrite Hf; reflexivity).
      rewrite Hs, Hbk, Hfk.
      destruct (IH (delete email d) (S del) fx) as [H1 [H2 H3]]; [exact Hnd|exact Hkeys'| | | | |].
      * intros x r Hx. destruct (decide (x = email)) as [->|Hxe]; [rewrite lookup_delete_eq in Hx; discriminate|].
        rewrite lookup_delete_ne in Hx by congruence. exact (Ha x r Hx).
      * intros x Hx. destruct (decide (x = email)) as [->|Hxe]; [rewrite lookup_delete_eq in Hx; destruct Hx; discriminate|].
        rewrite lookup_delete_ne in Hx by congruence.
        destruct (Hb x Hx) as [Hin|Hn]; [|right; exact Hn].
        apply elem_of_cons in Hin as [?|?]; [contradiction|left; assumption].
      * intros k Hk. rewrite lookup_delete_ne by (apply not_eq_sym, HR, Hk). apply Hc. right. exact Hk.
      * intros k x Hk HkR Hfk0. destruct (decide (k = email)) as [->|Hke]; [congruence|].
        pose proof (filterEmail_idem k x Hfk0) as Hxn.
        rewrite lookup_delete_ne by (intros ->; congruence).
        exact (Hd k x Hk (Hnotin k HkR Hke) Hfk0).
      * split; [|split; assumption]. rewrite H1. cbn [length]. f_equal; lia.
Qed.

Lemma for_in_keys_elem {A} (m : gmap Email A) (k : Email) : k ∈ for_in_keys m <-> is_Some (m !! k).
Proof.
  unfold for_in_keys. rewrite list_elem_of_fmap. split.
  - intros [[k' v] [-> Hin]]. apply elem_of_map_to_list in Hin. eexists; exact Hin.
  - intros [v Hv]. exists (k, v). split; [reflexivity|]. apply elem_of_map_to_list. exact Hv.
Qed.

Lemma cleanup_spec (st : State) :
  snd (cleanup st) = (length (List.filter bad_key (for_in_keys (db st))),
                      length (List.filter fixable_key (for_in_keys (db st)))) /\
  (forall x r, db (fst (cleanup st)) !! x = Some r -> exists k, db st !! k = Some r /\ filterEmail k = Some x) /\
  (forall k x, is_Some (db st !! k) -> filterEmail k = Some x -> is_Some (db (fst (cleanup st)) !! x)) /\
  sets (fst (cleanup st)) = sets st.
Proof.
  unfold cleanup, cleanup_in.
  destruct (cleanup_fold_spec (db st) (for_in_keys (db st)) (db st) 0 0) as [H1 [H2 H3]].
  - apply NoDup_fst_map_to_list.
  - intros k Hk. apply for_in_keys_elem. exact Hk.
  - intros x r Hx. exists x. split; [exact Hx|left; reflexivity].
  - intros x Hx. left. apply for_in_keys_elem. exact Hx.
  - intros k Hk. apply for_in_keys_elem. exact Hk.
  - intros k x Hk HkR. exfalso. apply HkR. apply for_in_keys_elem. exact Hk.
  - destruct (fold_left cleanup_step (for_in_keys (db st)) (db st, (0, 0)%nat)) as [d c].
    cbn [fst snd db sets] in *. split; [exact H1|split; [exact H2|split; [exact H3|reflexivity]]].
Qed.

(** X8: [cleanup()] reports as [deleted] the number of keys in which
    [filterEmail] finds no address, and as [fixed] the number of keys whose
    normal form differs from the key. *)
Theorem cleanup_counts (st : State) :
  snd (cleanup st) = (length (List.filter bad_key (for_in_keys (db st))),
                      length (List.filter fixable_key (for_in_keys (db st)))).
Proof. exact (proj1 (cleanup_spec st)). Qed.

(** X9: After [cleanup()] the keys of the directory are exactly the normal
    forms of the old keys in which an address is found, and every record
    left is one of the old records, stored under the normal form of a key
    that held it; the [Set] heap is untouched. *)
Theorem cleanup_normal_forms (st : State) :
  let st' := fst (cleanup st) in
  (forall x, is_Some (db st' !! x) <-> exists k, is_Some (db st !! k) /\ filterEmail k = Some x) /\
  (forall x r, db st' !! x = Some r -> exists k, db st !! k = Some r /\ filterEmail k = Some x) /\
  sets st' = sets st.
Proof.
  intros st'. destruct (cleanup_spec st) as [_ [H2 [H3 H4]]].
  split; [|split; [exact H2|exact H4]].
  intros x. split.
  - intros [r Hr]. destruct (H2 x r Hr) as [k [Hk Hf]]. exists k. split; [eexists; exact Hk|exact Hf].
  - intros [k [Hk Hf]]. exact (H3 k x Hk Hf).
Qed.

(** ** [lookupByRegexp] *)

Section RegexpLookup.
Variable regexp : re.




End RegexpLookup.


(** ** [emailToString] *)



(** ** The loop of [update_delivered] *)

(** The timestamp of the last item sent to [e]. *)
Fixpoint last_ts {T : Type} (e : Email) (items : list (Email * T)) : option T :=
  match items with
  | [] => None
  | (r, ts) :: l => match last_ts e l with Some t => Some t | None => if bool_decide (r = e) then Some ts else None end
  end.

Lemma update_delivered_fold (Moment : Type) (format : Moment -> jsstr) (Timestamp : Type)
    (to_moment : Timestamp -> Moment) (items : list (Email * Timestamp)) : forall st res,
  let a := fold_left (fun '(st, res) '(recipient, timestamp) =>
               let '(st', n) := setLastDelivered Moment format st [recipient] (to_moment timestamp) in
               (st', (res + n)%nat)) items (st, res) in
  snd a = (res + length (List.filter (fun it => bool_decide (is_Some (db st !! it.1))) items))%nat /\
  (forall e, db (fst a) !! e =
     match last_ts e items with
     | Some ts => with_last_delivered (format (to_moment ts)) <$> db st !! e
     | None => db st !! e
     end) /\
  sets (fst a) = sets st.
Proof.
  induction items as [|[recipient ts] items IH]; intros st res a; unfold a; clear a.
  - cbn [fold_left fst snd List.filter length last_ts]. split; [lia|split; reflexivity].
  - cbn [fold_left].
    destruct (setLastDelivered_fold Moment format (to_moment ts) [recipient] (db st) 0) as [Hn Hd].
    destruct (fold_left (setLastDelivered_step Moment format (to_moment ts)) [recipient] (db st, 0%nat))
      as [d n] eqn:E. cbn [fst snd] in Hn, Hd.
    assert (Hstep : setLastDelivered Moment format st [recipient] (to_moment ts) = (mkState d (sets st), n))
      by (unfold setLastDelivered; rewrite E; reflexivity).
    rewrite Hstep.
    destruct (IH (mkState d (sets st)) (res + n)%nat) as [H1 [H2 H3]].
    assert (Hsome : forall e, is_Some (d !! e) <-> is_Some (db st !! e))
      by (intros e; rewrite Hd, fmap_is_Some; reflexivity).
    split; [|split].
    + rewrite H1. cbn [db fst List.filter length] in *. rewrite Hn.
      assert (Hf : List.filter (fun it => bool_decide (is_Some (d !! it.1))) items =
                   List.filter (fun it => bool_decide (is_Some (db st !! it.1))) items)
        by (apply filter_ext; intros it; apply bool_decide_ext, Hsome).
      rewrite Hf. destruct (bool_decide (is_Some (db st !! recipient))); cbn [length]; lia.
    + intros e. rewrite H2. cbn [db last_ts]. rewrite Hd.
      rewrite (bool_decide_ext (e ∈ [recipient]) (recipient = e))
        by (rewrite list_elem_of_singleton; split; intros; congruence).
      destruct (last_ts e items) as [t|].
      * destruct (decide (recipient = e)) as [Heq|Hne].
        -- rewrite (bool_decide_eq_true_2 _ Heq). destruct (db st !! e); reflexivity.
        -- rewrite (bool_decide_eq_false_2 _ Hne). destruct (db st !! e); reflexivity.
      * destruct (decide (recipient = e)) as [Heq|Hne].
        -- rewrite !(bool_decide_eq_true_2 _ Heq). destruct (db st !! e); reflexivity.
        -- rewrite !(bool_decide_eq_false_2 _ Hne). destruct (db st !! e); reflexivity.
    + exact H3.
Qed.

(** X12: The loop of [update_delivered] over a page of delivery events
    counts every event whose recipient is in the directory, repeated
    recipients included, and leaves each such recipient with the formatted
    timestamp of its last event as [lastDelivered]; every other field, every
    other address and the [Set] heap are unchanged. *)
Theorem update_delivered_last_event (Moment : Type) (format : Moment -> jsstr) (Timestamp : Type)
    (to_moment : Timestamp -> Moment) (st : State) (items : list (Email * Timestamp)) :
  let a := update_delivered_loop Moment format Timestamp to_moment st items in
  snd a = length (List.filter (fun it => bool_decide (is_Some (db st !! it.1))) items) /\
  (forall e, db (fst a) !! e =
     match last_ts e items with
     | Some ts => with_last_delivered (format (to_moment ts)) <$> db st !! e
     | None => db st !! e
     end) /\
  sets (fst a) = sets st.
Proof.
  intros a. unfold a, update_delivered_loop.
  destruct (update_delivered_fold Moment format Timestamp to_moment items st 0) as [H1 H2].
  split; [exact H1|exact H2].
Qed.

(** ** The record migration of [load] *)

Lemma get_prop_delete_eq (k : jsstr) (ps : list (jsstr * jsv)) : get_prop k (delete_prop k ps) = None.
Proof.
  unfold delete_prop. induction ps as [|[k' v'] ps IH]; cbn [List.filter fst]; [reflexivity|].
  case_bool_decide as Hk; cbn [negb]; [exact IH|].
  rewrite get_prop_cons, bool_decide_eq_false_2 by exact Hk. exact IH.
Qed.

(** The status a record ends with. *)
Definition migrated_status (rps : list (jsstr * jsv)) : option jsv :=
  if js_truthy (default VNull (get_prop (js "broken") rps)) then Some (VStr (js "broken"))
  else if js_truthy (default VNull (get_prop (js "clean") rps)) then Some (VStr (js "clean"))
  else get_prop (js "status") rps.

Lemma fix_record_props_status (rps rps' : list (jsstr * jsv)) :
  fix_record_props rps = Some rps' ->
  get_prop (js "status") rps' = migrated_status rps /\
  get_prop (js "clean") rps' = None /\ get_prop (js "dirty") rps' = None /\
  get_prop (js "broken") rps' = get_prop (js "broken") rps.
Proof.
  unfold fix_record_props, migrated_status.
  destruct (new_Set_v (get_prop (js "tags") rps)) as [t|]; [|discriminate]. intros H. injection H as <-.
  assert (Htb : js "tags" <> js "broken") by (vm_compute; discriminate).
  assert (Htc : js "tags" <> js "clean") by (vm_compute; discriminate).
  assert (Hts : js "tags" <> js "status") by (vm_compute; discriminate).
  assert (Hsb : js "status" <> js "broken") by (vm_compute; discriminate).
  assert (Hsc : js "status" <> js "clean") by (vm_compute; discriminate).
  assert (Hsd : js "status" <> js "dirty") by (vm_compute; discriminate).
  assert (Hcd : js "clean" <> js "dirty") by (vm_compute; discriminate).
  assert (Hdb : js "dirty" <> js "broken") by (vm_compute; discriminate).
  assert (Hcb : js "clean" <> js "broken") by (vm_compute; discriminate).
  rewrite !(get_prop_set_prop_ne _ (js "tags")) by assumption.
  rewrite (get_prop_delete_eq (js "dirty")).
  rewrite (get_prop_delete_ne (js "clean") (js "dirty")) by (intros H; apply Hcd; symmetry; exact H).
  rewrite (get_prop_delete_eq (js "clean")).
  rewrite (get_prop_delete_ne (js "status") (js "dirty")) by (intros H; apply Hsd; symmetry; exact H).
  rewrite (get_prop_delete_ne (js "status") (js "clean")) by (intros H; apply Hsc; symmetry; exact H).
  rewrite (get_prop_delete_ne (js "broken") (js "dirty")) by exact Hdb.
  rewrite (get_prop_delete_ne (js "broken") (js "clean")) by exact Hcb.
  destruct (js_truthy (default VNull (get_prop (js "broken") rps))).
  - rewrite get_prop_set_prop_eq, (get_prop_set_prop_ne _ (js "status")) by exact Hsb.
    rewrite (get_prop_set_prop_ne _ (js "tags")) by exact Htb. tauto.
  - destruct (js_truthy (default VNull (get_prop (js "clean") rps))).
    + rewrite get_prop_set_prop_eq, (get_prop_set_prop_ne _ (js "status")) by exact Hsb.
      rewrite (get_prop_set_prop_ne _ (js "tags")) by exact Htb. tauto.
    + rewrite !(get_prop_set_prop_ne _ (js "tags")) by assumption. tauto.
Qed.

(** X13: When [load] completes on a parsed object, every record that is an
    object keeps its key and position; its [status] becomes ["broken"] if
    the legacy [broken] flag is truthy, else ["clean"] if [clean] is truthy,
    and otherwise stays what it was (absent for a legacy [dirty] record);
    [clean] and [dirty] are removed and [broken] is kept. *)
Theorem load_migrates_status (ps ps' : list (jsstr * jsv)) :
  load (Parsed (VObj ps)) = Some (VObj ps') ->
  Forall2 (fun kv kv' => kv'.1 = kv.1 /\
             forall rps, kv.2 = VObj rps -> exists rps', kv'.2 = VObj rps' /\
               get_prop (js "status") rps' = migrated_status rps /\
               get_prop (js "clean") rps' = None /\ get_prop (js "dirty") rps' = None /\
               get_prop (js "broken") rps' = get_prop (js "broken") rps) ps ps'.
Proof.
  unfold load. cbn [option_map]. destruct (fix_fields ps) as [ps0|] eqn:Hf; [|discriminate].
  intros H. injection H as <-. revert ps0 Hf.
  induction ps as [|[k v] ps IH]; intros ps0 Hf; cbn [fix_fields] in Hf.
  - injection Hf as <-. constructor.
  - destruct (fix_record v) as [v'|] eqn:Hv; [|discriminate].
    destruct (fix_fields ps) as [ps1|]; [|discriminate]. injection Hf as <-.
    constructor; [|apply IH; reflexivity]. cbn [fst snd]. split; [reflexivity|].
    intros rps ->. cbn [fix_record option_map] in Hv.
    destruct (fix_record_props rps) as [rps'|] eqn:Hr; [|discriminate]. injection Hv as <-.
    exists rps'. split; [reflexivity|]. exact (fix_record_props_status rps rps' Hr).
Qed.

Lemma load_migrates_status_witness :
  exists ps', load (Parsed (VObj [(js "a@x.com", VObj [(js "tags", VNull); (js "broken", VBool true);
                                                      (js "clean", VBool true)])])) = Some (VObj ps') /\
    Forall (fun kv => exists rps', kv.2 = VObj rps' /\ get_prop (js "status") rps' = Some (VStr (js "broken"))) ps'.
Proof.
  eexists. split; [vm_compute; reflexivity|].
  pose proof (load_migrates_status [(js "a@x.com", VObj [(js "tags", VNull); (js "broken", VBool true);
                                                        (js "clean", VBool true)])] _
                ltac:(vm_compute; reflexivity)) as H.
  inversion H as [|kv kv' l l' [_ Hkv] _ Hkv1 Hkv2]; subst.
  constructor; [|constructor].
  destruct (Hkv _ eq_refl) as [rps' [Hr [Hs _]]]. exists rps'. split; [exact Hr|].
  rewrite Hs. vm_compute. reflexivity.
Defined.

(** ** The cursor of [pageAll] *)

(** [sep] occurs somewhere in [s]. *)
Fixpoint occurs (sep s : jsstr) : bool :=
  match strip_prefix sep s with
  | Some _ => true
  | None => match s with [] => false | _ :: s' => occurs sep s' end
  end.

Lemma strip_prefix_app (p x : jsstr) : strip_prefix p (p ++ x) = Some x.
Proof. induction p as [|a p IH]; [reflexivity|]. cbn [app strip_prefix]. rewrite N.eqb_refl. exact IH. Qed.

Lemma split_go_no_sep (sep : jsstr) (s : jsstr) : forall f cur,
  occurs sep s = false -> (length s <= f)%nat -> split_go sep f s cur = [rev cur ++ s].
Proof.
  induction s as [|c s IH]; intros f cur Hocc Hf.
  - destruct f; cbn [split_go]; rewrite ?app_nil_r; reflexivity.
  - cbn [occurs] in Hocc. destruct (strip_prefix sep (c :: s)) eqn:Hs; [discriminate|].
    cbn [length] in Hf. destruct f as [|f]; [lia|]. cbn [split_go]. rewrite Hs.
    rewrite (IH f (c :: cur) Hocc) by lia. cbn [rev]. rewrite <- app_assoc. reflexivity.
Qed.

Lemma split_go_sep_head (sep x : jsstr) (f : nat) (cur : jsstr) :
  sep <> [] -> split_go sep (S f) (sep ++ x) cur = rev cur :: split_go sep f x [].
Proof.
  destruct sep as [|c sep']; [contradiction|]. intros _. cbn [app split_go].
  change (c :: sep' ++ x) with ((c :: sep') ++ x). rewrite strip_prefix_app. reflexivity.
Qed.

Lemma pageAll_go_head {Item} (url : option jsstr) (result : list Item) (q : Response Item)
    (rest : list (Response Item)) :
  exists tr, snd (pageAll_go url result (q :: rest)) =
    (if truthy url then GetUrl (default [] url) else FirstPage, q) :: tr.
Proof.
  cbn [pageAll_go]. destruct (Nat.eqb (length (items q)) 0); [eexists; reflexivity|].
  destruct (paging_next q) as [next|]; [|eexists; reflexivity].
  destruct (pageAll_go _ _ rest) as [o tr]. eexists; reflexivity.
Qed.

Lemma pageAll_go_step {Item} (url : option jsstr) (result : list Item) (p : Response Item)
    (pages : list (Response Item)) (next : jsstr) :
  Nat.eqb (length (items p)) 0 = false -> paging_next p = Some next ->
  pageAll_go url result (p :: pages) =
    let '(o, trace) := pageAll_go (nth_error (js_split mailgun_prefix next) 1) (result ++ items p) pages in
    (o, (if truthy url then GetUrl (default [] url) else FirstPage, p) :: trace).
Proof. intros Hl Hn. cbn [pageAll_go]. rewrite Hl, Hn. reflexivity. Qed.

(** X14: After a non-empty page, [pageAll] requests the path that follows
    ["https://api.mailgun.net/v3"] in the page's [paging.next] cursor; a
    cursor in which that prefix does not occur (another host, say) makes it
    call [fn] again, so the drain starts over from the first page. *)
Theorem pageAll_next_request {Item} (url : option jsstr) (result : list Item)
    (p q : Response Item) (rest : list (Response Item)) (next : jsstr) :
  items p <> [] -> paging_next p = Some next ->
  (forall path, next = mailgun_prefix ++ path -> path <> [] -> occurs mailgun_prefix path = false ->
     nth_error (map fst (snd (pageAll_go url result (p :: q :: rest)))) 1 = Some (GetUrl path)) /\
  (occurs mailgun_prefix next = false ->
     nth_error (map fst (snd (pageAll_go url result (p :: q :: rest)))) 1 = Some FirstPage).
Proof.
  intros Hp Hn.
  assert (Hl : Nat.eqb (length (items p)) 0 = false)
    by (apply Nat.eqb_neq; intros H; apply Hp; apply length_zero_iff_nil; exact H).
  assert (Hreq : forall u, nth_error (js_split mailgun_prefix next) 1 = u ->
            nth_error (map fst (snd (pageAll_go url result (p :: q :: rest)))) 1 =
            Some (if truthy u then GetUrl (default [] u) else FirstPage)).
  { intros u Hu. rewrite (pageAll_go_step url result p (q :: rest) next Hl Hn), Hu.
    destruct (pageAll_go_head u (result ++ items p) q rest) as [tr Htr].
    destruct (pageAll_go u (result ++ items p) (q :: rest)) as [o trace]. cbn [snd] in Htr |- *.
    rewrite Htr. reflexivity. }
  split.
  - intros path -> Hne Hocc. rewrite (Hreq (Some path)); [destruct path; [contradiction|reflexivity]|].
    unfold js_split. rewrite length_app.
    replace (length mailgun_prefix + length path)%nat with (S (length (tail mailgun_prefix) + length path))
      by (vm_compute; lia).
    rewrite split_go_sep_head by discriminate.
    rewrite (split_go_no_sep mailgun_prefix path _ [] Hocc) by (vm_compute; lia).
    reflexivity.
  - intros Hocc. rewrite (Hreq None); [reflexivity|]. unfold js_split.
    rewrite (split_go_no_sep mailgun_prefix next _ [] Hocc) by lia. reflexivity.
Qed.

Lemma pageAll_next_request_witness :
  nth_error (map fst (snd (pageAll pages_scenario))) 1 = Some (GetUrl (js "/x/p2")).
Proof.
  unfold pageAll, pages_scenario.
  refine (proj1 (pageAll_next_request None [] _ _ _ (js "https://api.mailgun.net/v3/x/p2") _ _)
            (js "/x/p2") _ _ _).
  all: first [discriminate | reflexivity | vm_compute; reflexivity].
Defined.

(** ** [insert] followed by [lookup] *)

Lemma tag_gate_all (h : gmap loc (list Tag)) (q : Query) (rec : Rec) :
  NoDup (q_tags q) -> (forall t, t ∈ q_tags q -> t ∈ set_of h (tags rec)) -> tag_gate h q rec = true.
Proof.
  intros Hnd Hall. unfold tag_gate.
  destruct (lodash_intersection_spec (set_of h (tags rec)) (q_tags q)) as [_ Hin].
  assert (Hsub : q_tags q ⊆+ lodash_intersection (set_of h (tags rec)) (q_tags q)).
  { apply NoDup_submseteq; [exact Hnd|]. intros t Ht. apply Hin. split; [apply Hall; exact Ht|exact Ht]. }
  apply submseteq_length in Hsub. apply negb_true_iff, Nat.ltb_ge. exact Hsub.
Qed.

(** X15: On a well-formed directory, after [insert] with a set of tags (no
    repetitions) and a locale, a [lookup] for those tags (and that locale,
    if non-empty), with no status or recency filter, finds every address of
    the file except those that were already stored as [broken]. *)
Theorem insert_then_lookup (days_since : jsstr -> option Z) (st : State) (content : jsstr)
    (tags_in : list Tag) (locale_in : option Locale) :
  wf st -> NoDup tags_in ->
  let st' := fst (insert st content tags_in locale_in) in
  forall line k, In line (js_split [10] content) -> filterEmail line = Some k ->
  (forall r, db st !! k = Some r -> status r <> Some broken) ->
  is_Some (fst (lookup days_since st'
                  (mkQuery tags_in (if truthy locale_in then locale_in else None) None None)) !! k).
Proof.
  intros Hwf Hnd st' line k Hin Hf Hnb.
  destruct (insert_first_run tags_in locale_in (js_split [10] content) (st, (0, 0)%nat) Hwf)
    as [Hwf' [Hgood _]].
  destruct (Hgood line k Hin Hf) as [r [Hr [Htags Hloc]]].
  destruct (insert_fold_fields tags_in locale_in (js_split [10] content) (st, (0, 0)%nat))
    as [_ Hvis].
  destruct (Hvis line k Hin Hf) as [r' [Hr' Hfields]].
  fold (insert st content tags_in locale_in) in Hwf', Hr, Htags, Hr'. fold st' in Hwf', Hr, Htags, Hr'.
  rewrite Hr in Hr'. injection Hr' as <-.
  assert (Hst : status r <> Some broken).
  { unfold rec_fields, visited_fields in Hfields. cbn [fst] in Hfields.
    destruct (db st !! k) as [r0|] eqn:H0; injection Hfields as Hs _ _; rewrite Hs;
      [exact (Hnb r0 eq_refl)|discriminate]. }
  apply (lookup_result_iff days_since st' _ k Hwf'). exists r. split; [exact Hr|].
  unfold passes, status_only_gate, broken_gate, cold_gate, locale_gate. cbn [statusOnly coldDays q_locale].
  rewrite (bool_decide_eq_false_2 (status r = Some broken)) by exact Hst.
  rewrite (tag_gate_all (sets st') (mkQuery tags_in (if truthy locale_in then locale_in else None) None None)
             r Hnd Htags). cbn [andb negb].
  destruct (truthy locale_in) eqn:Htr; [|reflexivity].
  pose proof (Hloc eq_refl) as Hl. destruct locale_in as [[|c s]|]; try discriminate.
  unfold calculated_locale. rewrite Hl. apply bool_decide_eq_true_2. reflexivity.
Qed.

Lemma insert_then_lookup_witness :
  is_Some (fst (lookup no_days (fst (insert empty_state scenario_src [js "t1"] None))
                  (mkQuery [js "t1"] None None None)) !! js "a@x.com").
Proof.
  assert (Hwf : wf empty_state) by (intros e r H; discriminate).
  apply (insert_then_lookup no_days empty_state scenario_src [js "t1"] None Hwf
           ltac:(apply NoDup_singleton) (js "a@x.com") (js "a@x.com")).
  - vm_compute. left. reflexivity.
  - vm_compute. reflexivity.
  - intros r H. discriminate.
Defined.

(** [setStatus] rewrites the status of the listed addresses present in the
    db and leaves every other entry and the tag sets alone. *)
Lemma setStatus_db (st : State) (emails : list Email) (s : Status) :
  (forall e, db (fst (setStatus st emails s)) !! e =
     (fun r => if bool_decide (e ∈ emails) then with_status s r else r) <$> db st !! e) /\
  sets (fst (setStatus st emails s)) = sets st.
Proof.
  unfold setStatus, for_in_keys.
  destruct (setStatus_fold emails s (map_to_list (db st)) (db st) 0%nat)
    as [H1 _]; [apply NoDup_fst_map_to_list|intros k v; apply elem_of_map_to_list|].
  destruct (fold_left (setStatus_step emails s) (map_to_list (db st)).*1 (db st, 0%nat)) as [d r].
  simpl in *. split; [|reflexivity].
  intros e. rewrite H1. destruct (db st !! e) as [r0|] eqn:He; simpl.
  - assert (e ∈ (map_to_list (db st)).*1).
    { apply list_elem_of_fmap. exists (e, r0). split; [reflexivity|]. apply elem_of_map_to_list. exact He. }
    case_bool_decide as Hin; case_bool_decide; simpl; tauto || reflexivity.
  - case_bool_decide; reflexivity.
Qed.

Lemma setStatus_wf (st : State) (emails : list Email) (s : Status) :
  wf st -> wf (fst (setStatus st emails s)).
Proof.
  intros Hwf e r Her. destruct (setStatus_db st emails s) as [Hd Hs].
  rewrite Hs. rewrite Hd in Her. destruct (db st !! e) as [r0|] eqn:He; [|discriminate].
  cbn in Her. injection Her as <-. case_bool_decide; exact (Hwf e r0 He).
Qed.

(** X16: after [mark_broken] ([setStatus(emails, 'broken')]), a lookup that
    does not ask for broken addresses returns none of the listed
    addresses, while a lookup with [statusOnly = 'broken'] and no other
    filter returns every listed address present in the db. *)
Theorem mark_broken_then_lookup (days_since : jsstr -> option Z) (st : State)
    (emails : list Email) (q : Query) :
  wf st -> statusOnly q <> Some broken ->
  let st' := fst (setStatus st emails broken) in
  (forall e, e ∈ emails -> fst (lookup days_since st' q) !! e = None) /\
  (forall e, e ∈ emails -> is_Some (db st !! e) ->
     is_Some (fst (lookup days_since st' (mkQuery [] None (Some broken) None)) !! e)).
Proof.
  intros Hwf Hq st'.
  assert (Hwf' : wf st') by (apply setStatus_wf; exact Hwf).
  destruct (setStatus_db st emails broken) as [Hd _].
  split.
  - intros e He. destruct (fst (lookup days_since st' q) !! e) eqn:Hl; [|reflexivity].
    exfalso. assert (Hs : is_Some (fst (lookup days_since st' q) !! e)) by (rewrite Hl; eexists; reflexivity).
    apply (lookup_result_iff days_since st' q e Hwf') in Hs. destruct Hs as [v [Hv Hp]].
    unfold st' in Hv. rewrite Hd in Hv. destruct (db st !! e) as [r0|]; [|discriminate].
    cbn in Hv. rewrite (bool_decide_eq_true_2 _ He) in Hv. injection Hv as <-.
    unfold passes, broken_gate in Hp. cbn [with_status status] in Hp.
    rewrite (bool_decide_eq_true_2 (Some broken = Some broken)) in Hp by reflexivity.
    destruct (statusOnly q) as [s|]; [|rewrite !andb_false_r, andb_false_l in Hp; discriminate].
    rewrite (bool_decide_eq_false_2 (s = broken)) in Hp by congruence.
    rewrite !andb_false_r, andb_false_l in Hp; discriminate.
  - intros e He [r0 Hr0]. apply (lookup_result_iff days_since st' _ e Hwf').
    exists (with_status broken r0). split.
    + unfold st'. rewrite Hd, Hr0. cbn. rewrite (bool_decide_eq_true_2 _ He). reflexivity.
    + unfold passes, status_only_gate, broken_gate, cold_gate, tag_gate, locale_gate.
      cbn [statusOnly coldDays q_locale q_tags with_status status].
      rewrite !bool_decide_eq_true_2 by reflexivity. reflexivity.
Qed.

Lemma mark_broken_then_lookup_witness :
  fst (lookup no_days (fst (setStatus status_scenario [js "c@z.com"] broken))
         (mkQuery [] None None None)) !! js "c@z.com" = None /\
  is_Some (fst (lookup no_days (fst (setStatus status_scenario [js "c@z.com"] broken))
         (mkQuery [] None (Some broken) None)) !! js "c@z.com").
Proof.
  assert (Hwf : wf status_scenario) by (apply wf_b_wf; vm_compute; reflexivity).
  destruct (mark_broken_then_lookup no_days status_scenario [js "c@z.com"] (mkQuery [] None None None)
              Hwf ltac:(discriminate)) as [H1 H2].
  split.
  - apply H1. apply list_elem_of_singleton. reflexivity.
  - apply H2; [apply list_elem_of_singleton; reflexivity|vm_compute; eexists; reflexivity].
Defined.
